(** * Delaunay triangulation of sdf/delaunay.go

    A shallow embedding of [SuperTriangle], [Circumcenter], [InCircumcircle]
    and [Delaunay2d] from sdf/delaunay.go, and the properties of the
    triangulator that follow from the code.

    Go [int] values are modelled as [Z] (the indices that occur are bounded
    by the length of a slice plus three, far away from the 64-bit limits),
    slices as lists with the run-time bounds check written out, [float64] as
    an interface [Scalar] with two instances: IEEE binary64 (the arithmetic
    the Go code runs on) and exact rational arithmetic (the idealisation in
    which the geometric statements are made).  Every operation of the code
    is rounded on its own, as Go does where it does not fuse a multiplication
    with an addition. *)

From Stdlib Require Import ZArith List Bool Lia Floats QArith Qabs Qminmax Qfield Lqa Permutation Sorted.
From stdpp Require Import base list.
Import ListNotations.

(** ** Outcomes of Go code *)

(** The values [errors.New] is called with in delaunay.go. *)
Inductive error : Set :=
| no_vertices
| coincident_points.

(** A Go call either returns, returns with a non-nil [error], or panics on
    an index out of range; [Timeout] is the model running out of loop fuel
    and corresponds to nothing in Go. *)
Inductive outcome (A : Type) : Type :=
| Ret (a : A)
| Fail (e : error)
| Panic
| Timeout.
Arguments Ret {A} a.
Arguments Fail {A} e.
Arguments Panic {A}.
Arguments Timeout {A}.

Definition obind {A B : Type} (m : outcome A) (f : A -> outcome B) : outcome B :=
  match m with
  | Ret a => f a
  | Fail e => Fail e
  | Panic => Panic
  | Timeout => Timeout
  end.

Declare Scope outcome_scope.
Delimit Scope outcome_scope with outcome.
Notation "x <- m ;; k" := (obind m (fun x => k))
  (at level 100, m at level 99, k at level 200, right associativity) : outcome_scope.
Local Open Scope outcome_scope.

(** ** Slices indexed by [int] *)

(** [len(s)]. *)
Definition len {A : Type} (s : list A) : Z := Z.of_nat (length s).

(** [s[i]]: panics unless [0 <= i < len(s)]. *)
Definition idx {A : Type} (s : list A) (i : Z) : outcome A :=
  if (i <? 0)%Z then Panic
  else match s !! Z.to_nat i with
       | Some a => Ret a
       | None => Panic
       end.

(** [s[i] = a]: panics unless [0 <= i < len(s)]. *)
Definition upd {A : Type} (s : list A) (i : Z) (a : A) : outcome (list A) :=
  if (i <? 0)%Z then Panic
  else if (i <? len s)%Z then Ret (<[Z.to_nat i := a]> s)
  else Panic.

(** [s[:n]]: panics unless [0 <= n <= len(s)] (the capacities in
    delaunay.go never come into play, the slices are only ever shortened). *)
Definition reslice {A : Type} (s : list A) (n : Z) : outcome (list A) :=
  if (n <? 0)%Z then Panic
  else if (n <=? len s)%Z then Ret (take (Z.to_nat n) s)
  else Panic.

(** ** The [for] statement *)

(** [for ; cond; post { body }] on a state [S] that holds the loop variable:
    [continue] is [body] returning early, after which [post] still runs.
    The fuel bounds the number of iterations; each loop below is given the
    length of the slice it runs over, and is shown to return within it. *)
Fixpoint for_loop {S : Type} (fuel : nat) (cond : S -> bool)
    (body : S -> outcome S) (post : S -> S) (s : S) : outcome S :=
  if cond s then
    match fuel with
    | O => Timeout
    | Datatypes.S fuel' =>
        obind (body s) (fun s' => for_loop fuel' cond body post (post s'))
    end
  else Ret s.

(** The states a loop passes through at the head of its iterations, from the
    state [s0] on. *)
Inductive loop_reach {S : Type} (cond : S -> bool) (body : S -> outcome S)
    (post : S -> S) (s0 : S) : S -> Prop :=
| reach_start : loop_reach cond body post s0 s0
| reach_iter s s' :
    loop_reach cond body post s0 s -> cond s = true -> body s = Ret s' ->
    loop_reach cond body post s0 (post s').

(** The state at the head of iteration [k] of the loop, or the state it
    stopped in before that. *)
Fixpoint for_steps {S : Type} (k : nat) (cond : S -> bool)
    (body : S -> outcome S) (post : S -> S) (s : S) : outcome S :=
  match k with
  | O => Ret s
  | Datatypes.S k' =>
      if cond s then obind (body s) (fun s' => for_steps k' cond body post (post s'))
      else Ret s
  end.

(** ** Floating-point interface *)

(** The operations of [float64] that delaunay.go and its helpers use; the
    literals are the ones that occur in the code.  Modelled from the spec:
    the package constant [EPSILON] and the function [Abs] are declared outside
    delaunay.go, the one is the fixed numerical tolerance, the other the
    absolute value; [math_Min] and [math_Max] serve the helpers below. *)
Class Scalar (F : Type) : Type := {
  lit_0 : F;
  lit_1 : F;
  lit_2 : F;
  lit_0_125 : F;
  lit_0_5 : F;
  EPSILON : F;
  fadd : F -> F -> F;
  fsub : F -> F -> F;
  fmul : F -> F -> F;
  fdiv : F -> F -> F;
  fneg : F -> F;
  flt : F -> F -> bool;
  fle : F -> F -> bool;
  feq : F -> F -> bool;
  Abs : F -> F;
  math_Min : F -> F -> F;
  math_Max : F -> F -> F;
}.

Declare Scope go_scope.
Delimit Scope go_scope with go.
Infix "+" := fadd : go_scope.
Infix "-" := fsub : go_scope.
Infix "*" := fmul : go_scope.
Infix "/" := fdiv : go_scope.
Notation "- x" := (fneg x) : go_scope.
Infix "<?" := flt (at level 70, no associativity) : go_scope.
Infix "<=?" := fle (at level 70, no associativity) : go_scope.
Infix "=?" := feq (at level 70, no associativity) : go_scope.
Notation "x >? y" := (flt y x) (at level 70, no associativity) : go_scope.

(** [type V2 struct { X, Y float64 }] *)
Record V2 (F : Type) : Type := mkV2 { X : F; Y : F }.
Arguments mkV2 {F} X Y.
Arguments X {F} v.
Arguments Y {F} v.

(** [type Box2 struct { Min, Max V2 }] *)
Record Box2 (F : Type) : Type := mkBox2 { BMin : V2 F; BMax : V2 F }.
Arguments mkBox2 {F} BMin BMax.
Arguments BMin {F} b.
Arguments BMax {F} b.

(** [type TriangleI [3]int] and [type EdgeI [2]int] *)
Definition TriangleI : Type := Z * Z * Z.
Definition EdgeI : Type := Z * Z.

Definition t0 (t : TriangleI) : Z := fst (fst t).
Definition t1 (t : TriangleI) : Z := snd (fst t).
Definition t2 (t : TriangleI) : Z := snd t.
Definition e0 (e : EdgeI) : Z := fst e.
Definition e1 (e : EdgeI) : Z := snd e.

Section Geometry.
Local Open Scope go_scope.
Context {F : Type} `{Scalar F}.

(** [type V2Set []V2] and [type Triangle2 [3]V2] *)
Definition V2Set : Type := list (V2 F).
Definition Triangle2 : Type := V2 F * V2 F * V2 F.

(** Modelled from the spec: the vector helpers [V2.Add], [V2.Sub],
    [V2.MulScalar], [V2.Min], [V2.Max] are declared outside delaunay.go;
    they act on each component. *)
Definition V2_Add (a b : V2 F) : V2 F := mkV2 (X a + X b) (Y a + Y b).
Definition V2_Sub (a b : V2 F) : V2 F := mkV2 (X a - X b) (Y a - Y b).
Definition V2_MulScalar (a : V2 F) (b : F) : V2 F := mkV2 (X a * b) (Y a * b).
Definition V2_Min (a b : V2 F) : V2 F := mkV2 (math_Min (X a) (X b)) (math_Min (Y a) (Y b)).
Definition V2_Max (a b : V2 F) : V2 F := mkV2 (math_Max (X a) (X b)) (math_Max (Y a) (Y b)).

(** Modelled from the spec: [V2.MaxComponent] is declared outside
    delaunay.go; the spec gives the half-extent of the one-point case,
    [p.MaxComponent() * 0.125], as [max(|x|,|y|) * 0.125], and that of the
    other case, [b.Size().MaxComponent() * 2.0], as
    [2 * max(box width, box height)]. *)
Definition V2_MaxComponent (a : V2 F) : F := math_Max (Abs (X a)) (Abs (Y a)).

(** Modelled from the spec: [V2Set.Min] and [V2Set.Max] are declared outside
    delaunay.go; they give the two corners of the axis-aligned bounding box
    of all points, starting from the first point (which must exist). *)
Definition V2Set_Min (s : V2Set) : outcome (V2 F) :=
  vmin <- idx s 0 ;; Ret (fold_left V2_Min s vmin).
Definition V2Set_Max (s : V2Set) : outcome (V2 F) :=
  vmax <- idx s 0 ;; Ret (fold_left V2_Max s vmax).

(** Modelled from the spec: [Box2.Size] and [Box2.Center] are declared
    outside delaunay.go; width and height of the box, and its centre. *)
Definition Box2_Size (b : Box2 F) : V2 F := V2_Sub (BMax b) (BMin b).
Definition Box2_Center (b : Box2 F) : V2 F :=
  V2_Add (BMin b) (V2_MulScalar (Box2_Size b) lit_0_5).

(** [func (s V2Set) SuperTriangle() ([]V2, error)].  In the one-point branch
    [p := s[0]] and [k := ...] declare new variables: the outer [p] and [k],
    which build the triangle, keep their zero values. *)
Definition SuperTriangle (s : V2Set) : outcome (list (V2 F)) :=
  if (len s =? 0)%Z then Fail no_vertices
  else
    let p := mkV2 lit_0 lit_0 in
    let k := lit_0 in
    pk <-
      (if (len s =? 1)%Z then
         p' <- idx s 0 ;;
         let k' := V2_MaxComponent p' * lit_0_125 in
         let k' := if k' =? lit_0 then lit_1 else k' in
         Ret (p, k)
       else
         smin <- V2Set_Min s ;;
         smax <- V2Set_Max s ;;
         let b := mkBox2 smin smax in
         let p := Box2_Center b in
         let k := V2_MaxComponent (Box2_Size b) * lit_2 in
         Ret (p, k)) ;;
    let '(p, k) := pk in
    let p0 := V2_Add p (mkV2 (- k) (- k)) in
    let p1 := V2_Add p (mkV2 lit_0 k) in
    let p2 := V2_Add p (mkV2 k (- k)) in
    Ret [p0; p1; p2].

(** [func (t Triangle2) Circumcenter() (V2, error)], statement by statement,
    with one addition: next to the centre it hands back the denominators of
    the divisions it carried out, in the order of the code (the divisions by
    the literal [2.0] are left out). *)
Definition Circumcenter_trace (t : Triangle2) : outcome (V2 F * list F) :=
  let '(ta, tb, tc) := t in
  let x1 := X ta in
  let x2 := X tb in
  let x3 := X tc in
  let y1 := Y ta in
  let y2 := Y tb in
  let y3 := Y tc in
  let fabsy1y2 := Abs (y1 - y2) in
  let fabsy2y3 := Abs (y2 - y3) in
  if (fabsy1y2 <? EPSILON) && (fabsy2y3 <? EPSILON) then Fail coincident_points
  else if fabsy1y2 <? EPSILON then
    let m2 := (- (x3 - x2)) / (y3 - y2) in
    let mx2 := (x2 + x3) / lit_2 in
    let my2 := (y2 + y3) / lit_2 in
    let xc := (x2 + x1) / lit_2 in
    let yc := m2 * (xc - mx2) + my2 in
    Ret (mkV2 xc yc, [y3 - y2])
  else if fabsy2y3 <? EPSILON then
    let m1 := (- (x2 - x1)) / (y2 - y1) in
    let mx1 := (x1 + x2) / lit_2 in
    let my1 := (y1 + y2) / lit_2 in
    let xc := (x3 + x2) / lit_2 in
    let yc := m1 * (xc - mx1) + my1 in
    Ret (mkV2 xc yc, [y2 - y1])
  else
    let m1 := (- (x2 - x1)) / (y2 - y1) in
    let m2 := (- (x3 - x2)) / (y3 - y2) in
    let mx1 := (x1 + x2) / lit_2 in
    let mx2 := (x2 + x3) / lit_2 in
    let my1 := (y1 + y2) / lit_2 in
    let my2 := (y2 + y3) / lit_2 in
    let xc := (m1 * mx1 - m2 * mx2 + my2 - my1) / (m1 - m2) in
    let yc := if fabsy1y2 >? fabsy2y3
              then m1 * (xc - mx1) + my1
              else m2 * (xc - mx2) + my2 in
    Ret (mkV2 xc yc, [y2 - y1; y3 - y2; m1 - m2]).

(** [Circumcenter] proper: the centre alone. *)
Definition Circumcenter (t : Triangle2) : outcome (V2 F) :=
  r <- Circumcenter_trace t ;; Ret (fst r).

(** The two squared distances [InCircumcircle] compares: that of the first
    vertex and that of [p] from the circumcentre [c]. *)
Definition radius2 (t : Triangle2) (c : V2 F) : F :=
  let dx := X (fst (fst t)) - X c in
  let dy := Y (fst (fst t)) - Y c in
  dx * dx + dy * dy.
Definition dist2 (p c : V2 F) : F :=
  let dx := X p - X c in
  let dy := Y p - Y c in
  dx * dx + dy * dy.

(** [func (t Triangle2) InCircumcircle(p V2) (inside, done bool)] *)
Definition InCircumcircle (t : Triangle2) (p : V2 F) : bool * bool :=
  match Circumcenter t with
  | Ret c =>
      let r2 := radius2 t c in
      let dx := X p - X c in
      let d2 := dist2 p c in
      let inside := d2 - r2 <=? EPSILON in
      let done := (dx >? lit_0) && (dx * dx >? r2) in
      (inside, done)
  | _ => (false, true)
  end.

End Geometry.

Arguments V2Set F : clear implicits.
Arguments Triangle2 F : clear implicits.

(** ** The triangulator *)

(** The sentinel [EdgeI{-1, -1}] that tags a cancelled edge. *)
Definition tagged : EdgeI := ((-1)%Z, (-1)%Z).

(** State of the loop over the active triangles: the slices [ts], [done]
    and [es], and the loop variables [nt] and [j]. *)
Record scan_st : Type := mkScan {
  sc_ts : list TriangleI;
  sc_done : list bool;
  sc_es : list EdgeI;
  sc_nt : Z;
  sc_j : Z;
}.

(** State of the two loops that tag multiple edges. *)
Record tag_st : Type := mkTag { tg_es : list EdgeI; tg_i : Z }.

(** State of the loop that removes the super-triangle's triangles. *)
Record fin_st : Type := mkFin { fn_ts : list TriangleI; fn_nt : Z; fn_j : Z }.

(** State of the loop over the vertices. *)
Record ins_st : Type := mkIns { in_ts : list TriangleI; in_done : list bool; in_i : Z }.

(** Body of [for k := j + 1; k < len(es); k++]. *)
Definition tag_inner_body (j : Z) (s : tag_st) : outcome tag_st :=
  let es := tg_es s in
  let k := tg_i s in
  ej <- idx es j ;;
  ek <- idx es k ;;
  es <- (if (e0 ej =? e1 ek)%Z && (e1 ej =? e0 ek)%Z
         then es <- upd es j tagged ;; upd es k tagged
         else Ret es) ;;
  ej <- idx es j ;;
  ek <- idx es k ;;
  es <- (if (e0 ej =? e0 ek)%Z && (e1 ej =? e1 ek)%Z
         then es <- upd es j tagged ;; upd es k tagged
         else Ret es) ;;
  Ret (mkTag es k).

Definition tag_next (s : tag_st) : tag_st := mkTag (tg_es s) (tg_i s + 1).

(** Body of [for j := 0; j < len(es)-1; j++]. *)
Definition tag_outer_body (s : tag_st) : outcome tag_st :=
  let es := tg_es s in
  let j := tg_i s in
  r <- for_loop (length es) (fun s' => (tg_i s' <? len (tg_es s'))%Z)
         (tag_inner_body j) tag_next (mkTag es (j + 1)) ;;
  Ret (mkTag (tg_es r) j).

(** "Tag multiple edges": the two nested loops of [Delaunay2d]. *)
Definition tag_edges (es : list EdgeI) : outcome (list EdgeI) :=
  r <- for_loop (length es) (fun s => (tg_i s <? len (tg_es s) - 1)%Z)
         tag_outer_body tag_next (mkTag es 0) ;;
  Ret (tg_es r).

(** "Form new triangles for the current point skipping over any tagged
    edges": [for _, e := range es]. *)
Definition form_step (i : Z) (acc : list TriangleI * list bool) (e : EdgeI)
    : list TriangleI * list bool :=
  if (e0 e <? 0)%Z || (e1 e <? 0)%Z then acc
  else (fst acc ++ [(e0 e, e1 e, i)], snd acc ++ [false]).

Definition form_triangles (i : Z) (es : list EdgeI) (ts : list TriangleI)
    (done : list bool) : list TriangleI * list bool :=
  fold_left (form_step i) es (ts, done).

(** Body of the last loop, [for j := 0; j < nt; j++]. *)
Definition fin_body (n : Z) (s : fin_st) : outcome fin_st :=
  let ts := fn_ts s in
  let nt := fn_nt s in
  let j := fn_j s in
  t <- idx ts j ;;
  if (t0 t >=? n)%Z || (t1 t >=? n)%Z || (t2 t >=? n)%Z then
    tl <- idx ts (nt - 1) ;;
    ts <- upd ts j tl ;;
    Ret (mkFin ts (nt - 1) (j - 1))
  else Ret s.

Definition fin_next (s : fin_st) : fin_st := mkFin (fn_ts s) (fn_nt s) (fn_j s + 1).

(** "remove any triangles with vertices from the super triangle" *)
Definition finalize (n : Z) (ts : list TriangleI) : outcome (list TriangleI) :=
  r <- for_loop (length ts) (fun s => (fn_j s <? fn_nt s)%Z)
         (fin_body n) fin_next (mkFin ts (len ts) 0) ;;
  reslice (fn_ts r) (fn_nt r).

Section Triangulator.
Context {F : Type} `{Scalar F}.

(** Modelled from the spec: [sort.Sort(V2SetByX(vs))]; [V2SetByX] is declared
    outside delaunay.go and orders the points by ascending x.  The order
    among points of equal x is left open by the spec; the model is the
    insertion sort, which keeps them in their order. *)
Definition V2SetByX_Less (a b : V2 F) : bool := (X a <? X b)%go.

Fixpoint insertByX (a : V2 F) (s : V2Set F) : V2Set F :=
  match s with
  | [] => [a]
  | b :: s' => if V2SetByX_Less b a then b :: insertByX a s' else a :: b :: s'
  end.

Definition sort_V2SetByX (s : V2Set F) : V2Set F := fold_right insertByX [] s.

(** Body of [for j := 0; j < nt; j++] over the active triangles, for the
    vertex [v]. *)
Definition scan_body (vs : V2Set F) (v : V2 F) (s : scan_st) : outcome scan_st :=
  let ts := sc_ts s in
  let done := sc_done s in
  let es := sc_es s in
  let nt := sc_nt s in
  let j := sc_j s in
  dj <- idx done j ;;
  if dj then Ret s
  else
    tj <- idx ts j ;;
    va <- idx vs (t0 tj) ;;
    vb <- idx vs (t1 tj) ;;
    vc <- idx vs (t2 tj) ;;
    let t := (va, vb, vc) in
    let '(inside, complete) := InCircumcircle t v in
    done <- upd done j complete ;;
    if inside then
      let es := es ++ [(t0 tj, t1 tj)] in
      let es := es ++ [(t1 tj, t2 tj)] in
      let es := es ++ [(t2 tj, t0 tj)] in
      tl <- idx ts (nt - 1) ;;
      ts <- upd ts j tl ;;
      dl <- idx done (nt - 1) ;;
      done <- upd done j dl ;;
      Ret (mkScan ts done es (nt - 1) (j - 1))
    else Ret (mkScan ts done es nt j).

Definition scan_next (s : scan_st) : scan_st :=
  mkScan (sc_ts s) (sc_done s) (sc_es s) (sc_nt s) (sc_j s + 1).

(** The edge buffer of vertex [v]: the loop over the active triangles,
    followed by "re-size the triangle/done sets". *)
Definition scan (vs : V2Set F) (v : V2 F) (ts : list TriangleI) (done : list bool)
    : outcome (list TriangleI * list bool * list EdgeI) :=
  r <- for_loop (length ts) (fun s => (sc_j s <? sc_nt s)%Z)
         (scan_body vs v) scan_next (mkScan ts done [] (len ts) 0) ;;
  ts <- reslice (sc_ts r) (sc_nt r) ;;
  done <- reslice (sc_done r) (sc_nt r) ;;
  Ret (ts, done, sc_es r).

(** Body of [for i := 0; i < n; i++]: one vertex is added to the mesh. *)
Definition insert_body (vs : V2Set F) (s : ins_st) : outcome ins_st :=
  let i := in_i s in
  v <- idx vs i ;;
  r <- scan vs v (in_ts s) (in_done s) ;;
  let '(ts, done, es) := r in
  es <- tag_edges es ;;
  let '(ts, done) := form_triangles i es ts done in
  Ret (mkIns ts done i).

Definition insert_next (s : ins_st) : ins_st :=
  mkIns (in_ts s) (in_done s) (in_i s + 1).

(** [Delaunay2d] from the sorting on: [vs] is the slice after
    [sort.Sort], [n] its length. *)
Definition triangulate (vs : V2Set F) : outcome (list TriangleI) :=
  let n := len vs in
  t <- SuperTriangle vs ;;
  let vs := vs ++ t in
  let ts := [(n, n + 1, n + 2)%Z] in
  let done := [false] in
  r <- for_loop (length vs) (fun s => (in_i s <? n)%Z)
         (insert_body vs) insert_next (mkIns ts done 0) ;;
  finalize n (in_ts r).

(** [func (vs V2Set) Delaunay2d() ([]TriangleI, error)]: the first component
    is the caller's slice after the call (sorted in place, also when the
    call fails), the second what the call returns. *)
Definition Delaunay2d (vs : V2Set F) : V2Set F * outcome (list TriangleI) :=
  let vs := sort_V2SetByX vs in
  (vs, triangulate vs).

End Triangulator.

(** ** The two arithmetics *)

(** Go's [math.Min] and [math.Max] on binary64. *)
Definition float_Min (x y : float) : float :=
  if (PrimFloat.eqb x neg_infinity || PrimFloat.eqb y neg_infinity) then neg_infinity
  else if (is_nan x || is_nan y) then nan
  else if (PrimFloat.eqb x 0 && PrimFloat.eqb x y) then (if get_sign x then x else y)
  else if PrimFloat.ltb x y then x else y.

Definition float_Max (x y : float) : float :=
  if (PrimFloat.eqb x infinity || PrimFloat.eqb y infinity) then infinity
  else if (is_nan x || is_nan y) then nan
  else if (PrimFloat.eqb x 0 && PrimFloat.eqb x y) then (if get_sign x then y else x)
  else if PrimFloat.ltb y x then x else y.

(** IEEE 754 binary64, the arithmetic of Go's [float64], with the tolerance
    [eps] for [EPSILON]. *)
Definition binary64 (eps : float) : Scalar float := {|
  lit_0 := 0%float;
  lit_1 := 1%float;
  lit_2 := 2%float;
  lit_0_125 := 0.125%float;
  lit_0_5 := 0.5%float;
  EPSILON := eps;
  fadd := PrimFloat.add;
  fsub := PrimFloat.sub;
  fmul := PrimFloat.mul;
  fdiv := PrimFloat.div;
  fneg := PrimFloat.opp;
  flt := PrimFloat.ltb;
  fle := PrimFloat.leb;
  feq := PrimFloat.eqb;
  Abs := PrimFloat.abs;
  math_Min := float_Min;
  math_Max := float_Max;
|}.

(** The tolerance used where a concrete run needs one: the binary64 nearest
    to [1e-12]. *)
Definition eps12 : float := 0x1.19799812dea11p-40%float.

(** A point with binary64 coordinates. *)
Definition pt (x y : float) : V2 float := mkV2 x y.

(** Exact arithmetic on the rationals, with the tolerance [eps]: no
    rounding, no overflow, no NaN. *)
Definition exactQ (eps : Q) : Scalar Q := {|
  lit_0 := 0%Q;
  lit_1 := 1%Q;
  lit_2 := 2%Q;
  lit_0_125 := (1 # 8)%Q;
  lit_0_5 := (1 # 2)%Q;
  EPSILON := eps;
  fadd := Qplus;
  fsub := Qminus;
  fmul := Qmult;
  fdiv := Qdiv;
  fneg := Qopp;
  flt := fun x y => negb (Qle_bool y x);
  fle := Qle_bool;
  feq := Qeq_bool;
  Abs := Qabs;
  math_Min := Qmin;
  math_Max := Qmax;
|}.

(** ** Notions the properties are stated with *)

(** Two edges that cancel each other: exact duplicates or exact reverses. *)
Definition twin (a b : EdgeI) : Prop := a = b \/ a = (e1 b, e0 b).

(** The two tests of the inner loop of "Tag multiple edges" taken together. *)
Definition twinb (a b : EdgeI) : bool :=
  ((e0 a =? e1 b)%Z && (e1 a =? e0 b)%Z) || ((e0 a =? e0 b)%Z && (e1 a =? e1 b)%Z).

(** Both edges of a pair are tagged. *)
Definition tag2 (j k : nat) (es : list EdgeI) : list EdgeI :=
  <[k := tagged]> (<[j := tagged]> es).

(** The claim of the edge-cancellation step read on a buffer [es]: after the
    scan, every two entries that were twins are both tagged. *)
Definition cancels_all_twins (es : list EdgeI) : Prop :=
  forall es', tag_edges es = Ret es' ->
  forall j k ej ek, j <> k -> es !! j = Some ej -> es !! k = Some ek ->
    twin ej ek -> es' !! j = Some tagged /\ es' !! k = Some tagged.

(** While vertex [i] of [n] is being added, a vertex index is that of an
    earlier input point or of the super-triangle. *)
Definition vertex_ok (n i x : Z) : Prop := (0 <= x < i)%Z \/ (n <= x < n + 3)%Z.

Definition tri_ok (n i : Z) (t : TriangleI) : Prop :=
  vertex_ok n i (t0 t) /\ vertex_ok n i (t1 t) /\ vertex_ok n i (t2 t) /\
  t0 t <> t1 t /\ t1 t <> t2 t /\ t2 t <> t0 t.

Definition edge_ok (n i : Z) (e : EdgeI) : Prop :=
  vertex_ok n i (e0 e) /\ vertex_ok n i (e1 e) /\ e0 e <> e1 e.

(** What the output is claimed to satisfy: three pairwise distinct indices
    in [[0, n)]. *)
Definition valid_triangle (n : Z) (t : TriangleI) : Prop :=
  (0 <= t0 t < n)%Z /\ (0 <= t1 t < n)%Z /\ (0 <= t2 t < n)%Z /\
  t0 t <> t1 t /\ t1 t <> t2 t /\ t2 t <> t0 t.

(** [ts] and [done] are in step: one flag for each triangle. *)
Definition lockstep (ts : list TriangleI) (done : list bool) : Prop :=
  length ts = length done.

Section Delaunay_property.
Context {F : Type} `{Scalar F}.

(** [p] lies strictly inside the circumcircle of [t], beyond the tolerance:
    its squared distance from the circumcentre is below the squared radius
    by more than [EPSILON], with the circle that [Circumcenter] computes and
    the two squared distances of [InCircumcircle]. *)
Definition strictly_inside (t : Triangle2 F) (p : V2 F) : bool :=
  match Circumcenter t with
  | Ret c => (dist2 p c - radius2 t c <? - EPSILON)%go
  | _ => false
  end.

Definition is_vertex (t : TriangleI) (i : Z) : bool :=
  (t0 t =? i)%Z || (t1 t =? i)%Z || (t2 t =? i)%Z.

(** The three points a triangle of indices refers to. *)
Definition triangle2_of (vs : V2Set F) (t : TriangleI) : outcome (Triangle2 F) :=
  va <- idx vs (t0 t) ;;
  vb <- idx vs (t1 t) ;;
  vc <- idx vs (t2 t) ;;
  Ret (va, vb, vc).

(** No point of [vs] other than the vertices of [t] is strictly inside the
    circumcircle of [t]. *)
Definition empty_circumcircle (vs : V2Set F) (t : TriangleI) : bool :=
  match triangle2_of vs t with
  | Ret tri =>
      forallb (fun ip => is_vertex t (Z.of_nat (fst ip)) || negb (strictly_inside tri (snd ip)))
        (combine (seq 0 (length vs)) vs)
  | _ => false
  end.

(** The Delaunay property of a list of triangles over the points [vs]. *)
Definition delaunay_property (vs : V2Set F) (ts : list TriangleI) : bool :=
  forallb (empty_circumcircle vs) ts.

End Delaunay_property.

(** Every denominator [Circumcenter] divided by is different from zero. *)
Definition divisors_nonzero {F : Type} `{Scalar F} (t : Triangle2 F) : bool :=
  match Circumcenter_trace t with
  | Ret (_, ds) => forallb (fun d => negb (d =? lit_0)%go) ds
  | _ => true
  end.

(** No x coordinate is a NaN. *)
Definition no_nan_x (vs : V2Set float) : bool :=
  forallb (fun v => negb (is_nan (X v))) vs.

(** One of the coordinates of the point is a NaN. *)
Definition has_nan (p : V2 float) : bool := is_nan (X p) || is_nan (Y p).

(** Ascending x, on binary64: [a] before [b] with [a.X <= b.X]. *)
Definition x_le (a b : V2 float) : Prop := PrimFloat.leb (X a) (X b) = true.

(** [b] after [a] is in order: [b.X < a.X] does not hold.  Without a NaN
    this is [x_le]. *)
Definition x_not_after (a b : V2 float) : Prop := PrimFloat.ltb (X b) (X a) = false.

(** Ascending x, in exact arithmetic. *)
Definition x_le_exact (a b : V2 Q) : Prop := (X a <= X b)%Q.

(** ** The active triangles as records *)

(** The data model of the spec pairs every active triangle with its done
    flag, one record for both.  The loop over the active triangles, its
    re-slicing and the forming of the new triangles on such records, to
    compare the two slices [ts] and [done] of the code with. *)
Record pscan_st : Type := mkPScan {
  ps_act : list (TriangleI * bool);
  ps_es : list EdgeI;
  ps_nt : Z;
  ps_j : Z;
}.

Definition scan_body_paired {F : Type} `{Scalar F} (vs : V2Set F) (v : V2 F)
    (s : pscan_st) : outcome pscan_st :=
  let act := ps_act s in
  let es := ps_es s in
  let nt := ps_nt s in
  let j := ps_j s in
  aj <- idx act j ;;
  if snd aj then Ret s
  else
    let tj := fst aj in
    va <- idx vs (t0 tj) ;;
    vb <- idx vs (t1 tj) ;;
    vc <- idx vs (t2 tj) ;;
    let '(inside, complete) := InCircumcircle (va, vb, vc) v in
    act <- upd act j (tj, complete) ;;
    if inside then
      let es := es ++ [(t0 tj, t1 tj)] in
      let es := es ++ [(t1 tj, t2 tj)] in
      let es := es ++ [(t2 tj, t0 tj)] in
      al <- idx act (nt - 1) ;;
      act <- upd act j al ;;
      Ret (mkPScan act es (nt - 1) (j - 1))
    else Ret (mkPScan act es nt j).

Definition form_step_paired (i : Z) (act : list (TriangleI * bool)) (e : EdgeI)
    : list (TriangleI * bool) :=
  if (e0 e <? 0)%Z || (e1 e <? 0)%Z then act
  else act ++ [((e0 e, e1 e, i), false)].

Definition form_triangles_paired (i : Z) (es : list EdgeI)
    (act : list (TriangleI * bool)) : list (TriangleI * bool) :=
  fold_left (form_step_paired i) es act.

(** The records that the two slices of a state of the code stand for. *)
Definition pair_of (s : scan_st) : pscan_st :=
  mkPScan (zip (sc_ts s) (sc_done s)) (sc_es s) (sc_nt s) (sc_j s).

Section Enclosure.
Context {F : Type} `{Scalar F}.
Local Open Scope go_scope.

(** The bounding box [Box2{s.Min(), s.Max()}] of [SuperTriangle]. *)
Definition bounding_box (s : V2Set F) : outcome (Box2 F) :=
  smin <- V2Set_Min s ;;
  smax <- V2Set_Max s ;;
  Ret (mkBox2 smin smax).

(** The three points [c+(-k,-k)], [c+(0,k)], [c+(k,-k)]. *)
Definition super_points (c : V2 F) (k : F) : list (V2 F) :=
  [V2_Add c (mkV2 (- k) (- k)); V2_Add c (mkV2 lit_0 k); V2_Add c (mkV2 k (- k))].

(** Twice the signed area of the triangle [a], [b], [q]. *)
Definition cross (a b q : V2 F) : F :=
  (X b - X a) * (Y q - Y a) - (Y b - Y a) * (X q - X a).

(** [x] is between [lo] and [hi], whichever of the two is the larger. *)
Definition between (lo x hi : F) : bool :=
  ((lo <=? x) && (x <=? hi)) || ((hi <=? x) && (x <=? lo)).

(** The closed triangle [t] contains [q]: [q] is on one side of the three
    edges (or on them), and within the extent of each edge pair, which
    settles the triangles that are a segment or a point. *)
Definition encloses (t : list (V2 F)) (q : V2 F) : bool :=
  match t with
  | [p0; p1; p2] =>
      let d0 := cross p0 p1 q in
      let d1 := cross p1 p2 q in
      let d2 := cross p2 p0 q in
      (((d0 <=? lit_0) && (d1 <=? lit_0) && (d2 <=? lit_0)) ||
       ((lit_0 <=? d0) && (lit_0 <=? d1) && (lit_0 <=? d2))) &&
      (between (X p0) (X q) (X p1) || between (X p1) (X q) (X p2) ||
       between (X p2) (X q) (X p0)) &&
      (between (Y p0) (Y q) (Y p1) || between (Y p1) (Y q) (Y p2) ||
       between (Y p2) (Y q) (Y p0))
  | _ => false
  end.

(** [q] is in the interior of the triangle [t]: strictly on one side of the
    three edges. *)
Definition strictly_encloses (t : list (V2 F)) (q : V2 F) : bool :=
  match t with
  | [p0; p1; p2] =>
      let d0 := cross p0 p1 q in
      let d1 := cross p1 p2 q in
      let d2 := cross p2 p0 q in
      ((d0 <? lit_0) && (d1 <? lit_0) && (d2 <? lit_0)) ||
      ((lit_0 <? d0) && (lit_0 <? d1) && (lit_0 <? d2))
  | _ => false
  end.

End Enclosure.

(** ** Invariants of the loops *)

(** Every entry of [es] is the one of [orig] or the tag. *)
Definition kept (orig es : list EdgeI) : Prop :=
  length es = length orig /\
  forall l e, es !! l = Some e -> e = tagged \/ orig !! l = Some e.

(** The entries [j0] and [k0] are still the edges [ej] and [ek]. *)
Definition intact (j0 k0 : nat) (ej ek : EdgeI) (es : list EdgeI) : Prop :=
  es !! j0 = Some ej /\ es !! k0 = Some ek.

Definition both_tagged (j0 k0 : nat) (es : list EdgeI) : Prop :=
  es !! j0 = Some tagged /\ es !! k0 = Some tagged.

Definition pair_inv (orig : list EdgeI) (j0 k0 : nat) (ej ek : EdgeI)
    (es : list EdgeI) : Prop :=
  kept orig es /\ (intact j0 k0 ej ek es \/ both_tagged j0 k0 es).

(** The effect of the inner body of "Tag multiple edges" at the pair
    [(a, b)]. *)
Definition pair_step (a b : nat) (es : list EdgeI) : list EdgeI :=
  match es !! a, es !! b with
  | Some ea, Some eb => if twinb ea eb then tag2 a b es else es
  | _, _ => es
  end.

(** The loop over the active triangles, for vertex [i] of [n], on slices of
    length [L]. *)
Definition scan_inv (n i : Z) (L : nat) (s : scan_st) : Prop :=
  length (sc_ts s) = L /\ length (sc_done s) = L /\
  (0 <= sc_j s <= sc_nt s)%Z /\ (sc_nt s <= Z.of_nat L)%Z /\
  Forall (tri_ok n i) (sc_ts s) /\ Forall (edge_ok n i) (sc_es s).

(** The loop over the vertices. *)
Definition ins_inv (n : Z) (s : ins_st) : Prop :=
  (0 <= in_i s <= n)%Z /\ lockstep (in_ts s) (in_done s) /\
  Forall (tri_ok n (in_i s)) (in_ts s).

(** No vertex of [t] is one of the super-triangle. *)
Definition below (n : Z) (t : TriangleI) : Prop :=
  (t0 t < n)%Z /\ (t1 t < n)%Z /\ (t2 t < n)%Z.

#[global] Instance below_dec (n : Z) (t : TriangleI) : Decision (below n t).
Proof. unfold below. apply _. Defined.

(** The last loop: the triangles before [j] are kept for good. *)
Definition fin_inv (n : Z) (L : nat) (s : fin_st) : Prop :=
  length (fn_ts s) = L /\ (0 <= fn_j s <= fn_nt s)%Z /\ (fn_nt s <= Z.of_nat L)%Z /\
  Forall (tri_ok n n) (fn_ts s) /\
  forall p t, (Z.of_nat p < fn_j s)%Z -> fn_ts s !! p = Some t -> below n t.

(** ** The circle in exact arithmetic *)

Section Circle.
Variable eps : Q.
Let QS : Scalar Q := exactQ eps.
Existing Instance QS.

(** The edges that [Circumcenter] takes for horizontal, those whose ends
    differ in y by less than the tolerance, are horizontal. *)
Definition flat_edges_level (t : Triangle2 Q) : Prop :=
  let '(ta, tb, tc) := t in
  ((Qabs (Y ta - Y tb) < eps)%Q -> (Y ta == Y tb)%Q) /\
  ((Qabs (Y tb - Y tc) < eps)%Q -> (Y tb == Y tc)%Q).

(** [c] is at the same distance from the three vertices of [t]. *)
Definition equidistant (t : Triangle2 Q) (c : V2 Q) : Prop :=
  let '(ta, tb, tc) := t in
  (dist2 ta c == dist2 tb c)%Q /\ (dist2 tb c == dist2 tc c)%Q.

End Circle.

(** The last loop, whatever the triangles: those without a super-triangle
    vertex among the first [nt] are, up to their order, those of the slice
    [ts0] the loop started with. *)
Definition fin_perm (n : Z) (ts0 : list TriangleI) (s : fin_st) : Prop :=
  length (fn_ts s) = length ts0 /\
  (0 <= fn_j s <= fn_nt s)%Z /\ (fn_nt s <= len ts0)%Z /\
  Permutation (filter (below n) (take (Z.to_nat (fn_nt s)) (fn_ts s)))
              (filter (below n) ts0) /\
  forall p t, (Z.of_nat p < fn_j s)%Z -> fn_ts s !! p = Some t -> below n t.

(** The three edges [Delaunay2d] puts into the edge buffer for a triangle
    it removes. *)
Definition edges_of (t : TriangleI) : list EdgeI :=
  [(t0 t, t1 t); (t1 t, t2 t); (t2 t, t0 t)].

(** An edge that "Form new triangles" does not skip: neither index is
    negative. *)
Definition live_edge (e : EdgeI) : Prop := (0 <= e0 e)%Z /\ (0 <= e1 e)%Z.

#[global] Instance live_edge_dec (e : EdgeI) : Decision (live_edge e).
Proof. unfold live_edge. apply _. Defined.

(** The triangle [TriangleI{e[0], e[1], i}] formed from the edge [e] for the
    vertex [i]. *)
Definition new_triangle (i : Z) (e : EdgeI) : TriangleI := (e0 e, e1 e, i).

Section ScanNotions.
Context {F : Type} `{Scalar F}.
Variables (vs : V2Set F) (v : V2 F).

(** [InCircumcircle] finds [v] inside the circle of the triangle [t]. *)
Definition tested_in (t : TriangleI) : Prop :=
  exists tri c, triangle2_of vs t = Ret tri /\ InCircumcircle tri v = (true, c).

(** [InCircumcircle] finds [v] not inside the circle of the triangle, and
    the flag of the record is the one it reported. *)
Definition tested_out (x : TriangleI * bool) : Prop :=
  exists tri, triangle2_of vs (fst x) = Ret tri /\ InCircumcircle tri v = (false, snd x).

(** A record the loop over the active triangles is through with: it was
    done when the loop began, or it has been tested and kept. *)
Definition settled (act0 : list (TriangleI * bool)) (x : TriangleI * bool) : Prop :=
  (snd x = true /\ elem_of x act0) \/ tested_out x.

(** The loop over the active triangles for the vertex [v], on the records,
    begun with the records [act0]: the triangles among the first [nt]
    records and the removed ones are those of [act0]; the edge buffer holds
    the edges of the removed ones, each of which was not done and has [v]
    inside; the records before [j] are settled, those from [j] on are as in
    [act0]; every record of [act0] that was done is among the first [nt]. *)
Definition scan_post (act0 : list (TriangleI * bool)) (s : pscan_st) : Prop :=
  (0 <= ps_j s <= ps_nt s)%Z /\ (ps_nt s <= len (ps_act s))%Z /\
  (exists removed,
     Permutation (act0.*1) ((take (Z.to_nat (ps_nt s)) (ps_act s)).*1 ++ removed) /\
     ps_es s = concat (map edges_of removed) /\
     Forall (fun t => elem_of (t, false) act0 /\ tested_in t) removed) /\
  (forall p x, (Z.of_nat p < ps_j s)%Z -> ps_act s !! p = Some x -> settled act0 x) /\
  (forall p x, (ps_j s <= Z.of_nat p < ps_nt s)%Z -> ps_act s !! p = Some x ->
     elem_of x act0) /\
  (forall t, elem_of (t, true) act0 ->
     exists p, (Z.of_nat p < ps_nt s)%Z /\ ps_act s !! p = Some (t, true)).

End ScanNotions.

(** ** Inputs of the runs *)

(** A point with rational coordinates. *)
Definition qpt (x y : Q) : V2 Q := mkV2 x y.

(** Five points, two of them equal. *)
Definition five_points : V2Set float := [pt 3 1; pt 0 2; pt 0 0; pt 3 0; pt 3 1].

(** Eight distinct points. *)
Definition eight_points : V2Set float :=
  [pt 5 17; pt 16 44; pt 15 40; pt 22 45; pt 37 50; pt 38 28; pt 12 31; pt 15 4].

(** Four points that are not sorted by x. *)
Definition unsorted_points : V2Set float := [pt 0 0; pt 0 1; pt 2 0; pt 1 0].

(** Two points whose bounding box is wider than the largest binary64. *)
Definition far_points : V2Set float := [pt (-0x1p1023) 0; pt 0x1p1023 0].

(** Three points near the origin and two far to their right. *)
Definition spread_points : V2Set float :=
  [pt 0 0; pt 0 1; pt 1 0; pt 10 0.5; pt 20 0].

(** The corners of a square and a point inside it. *)
Definition corner_points : V2Set float := [pt 0 0; pt 4 0; pt 0 4; pt 1 1].

(** Two equal points. *)
Definition twice_the_same : V2Set float := [pt 1 1; pt 1 1].

(** * Properties *)

(** ** Loops *)

Section ForLoop.
Context {S : Type} (cond : S -> bool) (body : S -> outcome S) (post : S -> S).

(** Partial correctness: an invariant kept by every iteration holds when the
    loop returns, together with the negated condition. *)
Lemma for_loop_inv (I : S -> Prop) :
  (forall s s', I s -> cond s = true -> body s = Ret s' -> I (post s')) ->
  forall fuel s r, I s -> for_loop fuel cond body post s = Ret r ->
    I r /\ cond r = false.
Proof.
  intros Hstep fuel. induction fuel as [|fuel IH]; intros s r Hs Hrun; simpl in Hrun.
  - destruct (cond s) eqn:Hc; [discriminate|]. by inversion Hrun; subst.
  - destruct (cond s) eqn:Hc.
    + destruct (body s) as [s'| | |] eqn:Hb; simpl in Hrun; try discriminate.
      eapply IH; [|exact Hrun]. eauto.
    + by inversion Hrun; subst.
Qed.

(** Total correctness: with a variant that every iteration decreases, and
    fuel for it, the loop returns. *)
Lemma for_loop_total (I : S -> Prop) (m : S -> nat) :
  (forall s, I s -> cond s = true ->
     exists s', body s = Ret s' /\ I (post s') /\ m (post s') < m s) ->
  forall fuel s, I s -> m s <= fuel ->
    exists r, for_loop fuel cond body post s = Ret r /\ I r /\ cond r = false.
Proof.
  intros Hstep fuel. induction fuel as [|fuel IH]; intros s Hs Hm; simpl.
  - destruct (cond s) eqn:Hc; [|by eauto].
    destruct (Hstep s Hs Hc) as (s' & _ & _ & Hlt). lia.
  - destruct (cond s) eqn:Hc; [|by eauto].
    destruct (Hstep s Hs Hc) as (s' & Hb & Hi & Hlt). rewrite Hb. simpl.
    apply IH; [done|lia].
Qed.

Lemma loop_reach_inv (I : S -> Prop) (s0 : S) :
  (forall s s', I s -> cond s = true -> body s = Ret s' -> I (post s')) ->
  I s0 -> forall s, loop_reach cond body post s0 s -> I s.
Proof. intros Hstep H0 s Hr. induction Hr; eauto. Qed.

(** What the loop returns is one of these states. *)
Lemma for_loop_reach fuel s0 s r :
  loop_reach cond body post s0 s -> for_loop fuel cond body post s = Ret r -> loop_reach cond body post s0 r.
Proof.
  revert s. induction fuel as [|fuel IH]; intros s Hs Hrun; simpl in Hrun.
  - destruct (cond s); [discriminate|]. by inversion Hrun; subst.
  - destruct (cond s) eqn:Hc.
    + destruct (body s) as [s'| | |] eqn:Hb; simpl in Hrun; try discriminate.
      eapply IH; [|exact Hrun]. by eapply reach_iter.
    + by inversion Hrun; subst.
Qed.

End ForLoop.

(** ** Slices *)

Lemma len_nonneg {A} (s : list A) : (0 <= len s)%Z.
Proof. unfold len. lia. Qed.

Lemma len_app {A} (s1 s2 : list A) : len (s1 ++ s2) = (len s1 + len s2)%Z.
Proof. unfold len. rewrite length_app. lia. Qed.

Lemma idx_Ret {A} (s : list A) (i : Z) (a : A) :
  idx s i = Ret a <-> (0 <= i)%Z /\ s !! Z.to_nat i = Some a.
Proof.
  unfold idx. destruct (Z.ltb_spec i 0).
  - split; [discriminate|lia].
  - destruct (s !! Z.to_nat i) eqn:E; split; intros; try discriminate.
    + inversion H0; subst. done.
    + destruct H0 as [_ H0]. by inversion H0.
    + destruct H0 as [_ H0]. discriminate.
Qed.

Lemma idx_in_range {A} (s : list A) (i : Z) :
  (0 <= i < len s)%Z -> exists a, idx s i = Ret a /\ s !! Z.to_nat i = Some a.
Proof.
  intros Hi. unfold len in Hi.
  destruct (lookup_lt_is_Some_2 s (Z.to_nat i)) as [a Ha]; [lia|].
  exists a. split; [|done]. apply idx_Ret. split; [lia|done].
Qed.

Lemma upd_in_range {A} (s : list A) (i : Z) (a : A) :
  (0 <= i < len s)%Z -> upd s i a = Ret (<[Z.to_nat i := a]> s).
Proof.
  intros Hi. unfold upd.
  destruct (Z.ltb_spec i 0); [lia|]. destruct (Z.ltb_spec i (len s)); [done|lia].
Qed.

Lemma upd_Ret {A} (s s' : list A) (i : Z) (a : A) :
  upd s i a = Ret s' -> (0 <= i < len s)%Z /\ s' = <[Z.to_nat i := a]> s.
Proof.
  unfold upd. destruct (Z.ltb_spec i 0); [discriminate|].
  destruct (Z.ltb_spec i (len s)); [|discriminate].
  intros E. inversion E. split; [lia|done].
Qed.

Lemma reslice_in_range {A} (s : list A) (n : Z) :
  (0 <= n <= len s)%Z -> reslice s n = Ret (take (Z.to_nat n) s).
Proof.
  intros Hn. unfold reslice.
  destruct (Z.ltb_spec n 0); [lia|]. destruct (Z.leb_spec n (len s)); [done|lia].
Qed.

Lemma reslice_Ret {A} (s s' : list A) (n : Z) :
  reslice s n = Ret s' -> (0 <= n <= len s)%Z /\ s' = take (Z.to_nat n) s.
Proof.
  unfold reslice. destruct (Z.ltb_spec n 0); [discriminate|].
  destruct (Z.leb_spec n (len s)); [|discriminate].
  intros E. inversion E. split; [lia|done].
Qed.

Lemma len_insert {A} (s : list A) (i : nat) (a : A) : len (<[i := a]> s) = len s.
Proof. unfold len. by rewrite length_insert. Qed.

(** ** Edge cancellation *)

Lemma twinb_twin a b : twinb a b = true <-> twin a b.
Proof.
  destruct a as [a0 a1], b as [b0 b1]. unfold twinb, twin, e0, e1. simpl.
  rewrite orb_true_iff, !andb_true_iff, !Z.eqb_eq. split.
  - intros [[-> ->]|[-> ->]]; auto.
  - intros [E|E]; inversion E; subst; auto.
Qed.

Lemma twin_sym a b : twin a b -> twin b a.
Proof.
  destruct a as [a0 a1], b as [b0 b1]. unfold twin, e0, e1. simpl.
  intros [E|E]; inversion E; subst; auto.
Qed.

Lemma twin_trans a b c : twin a b -> twin b c -> twin a c.
Proof.
  destruct a as [a0 a1], b as [b0 b1], c as [c0 c1]. unfold twin, e0, e1. simpl.
  intros [E|E] [E'|E']; inversion E; inversion E'; subst; auto.
Qed.

Lemma twin_tagged a : twin a tagged -> a = tagged.
Proof. unfold twin, tagged, e0, e1. simpl. by intros [E|E]. Qed.

Lemma tag2_length j k es : length (tag2 j k es) = length es.
Proof. unfold tag2. by rewrite !length_insert. Qed.

Lemma tag2_lookup j k es l :
  j < length es -> k < length es ->
  tag2 j k es !! l = if decide (l = j \/ l = k) then Some tagged else es !! l.
Proof.
  intros Hj Hk. unfold tag2.
  destruct (decide (l = k)) as [->|Hlk].
  - rewrite list_lookup_insert_eq by (by rewrite length_insert).
    destruct (decide _) as [|n]; [done|]. exfalso. apply n. auto.
  - rewrite list_lookup_insert_ne by done.
    destruct (decide (l = j)) as [->|Hlj].
    + rewrite list_lookup_insert_eq by done.
      destruct (decide _) as [|n]; [done|]. exfalso. apply n. auto.
    + rewrite list_lookup_insert_ne by done.
      destruct (decide _) as [[?|?]|]; congruence.
Qed.

Lemma tag2_idem j k es :
  j < length es -> k < length es -> tag2 j k (tag2 j k es) = tag2 j k es.
Proof.
  intros Hj Hk. apply list_eq. intros l.
  rewrite (tag2_lookup j k (tag2 j k es)) by (by rewrite tag2_length).
  rewrite (tag2_lookup j k es) by done.
  by destruct (decide _).
Qed.

(** One pass of the inner body tags the pair [(j, k)] exactly when the two
    edges are twins. *)
Lemma tag_inner_body_spec (j k : Z) (es : list EdgeI) (ej ek : EdgeI) :
  (0 <= j)%Z -> (0 <= k)%Z ->
  es !! Z.to_nat j = Some ej -> es !! Z.to_nat k = Some ek ->
  tag_inner_body j (mkTag es k) =
    Ret (mkTag (if twinb ej ek then tag2 (Z.to_nat j) (Z.to_nat k) es else es) k).
Proof.
  intros Hj Hk Hej Hek.
  pose proof (lookup_lt_Some _ _ _ Hej) as Hjl.
  pose proof (lookup_lt_Some _ _ _ Hek) as Hkl.
  assert (Hidx : forall (l : list EdgeI) (i : Z) e,
             (0 <= i)%Z -> l !! Z.to_nat i = Some e -> idx l i = Ret e)
    by (intros; apply idx_Ret; auto).
  assert (Hupd2 : forall l : list EdgeI, length l = length es ->
             (es' <- upd l j tagged ;; upd es' k tagged) =
             Ret (tag2 (Z.to_nat j) (Z.to_nat k) l)).
  { intros l Hl. rewrite upd_in_range by (unfold len; lia). simpl.
    rewrite upd_in_range by (rewrite len_insert; unfold len; lia). done. }
  unfold tag_inner_body. simpl.
  rewrite (Hidx es j ej), (Hidx es k ek) by done. simpl.
  unfold twinb.
  destruct ((e0 ej =? e1 ek)%Z && (e1 ej =? e0 ek)%Z) eqn:Erev; simpl.
  - rewrite Hupd2 by done. simpl.
    set (es1 := tag2 (Z.to_nat j) (Z.to_nat k) es).
    assert (es1 !! Z.to_nat j = Some tagged) as H1.
    { unfold es1. rewrite tag2_lookup by done. destruct (decide _) as [|n]; [done|].
      exfalso; apply n; auto. }
    assert (es1 !! Z.to_nat k = Some tagged) as H2.
    { unfold es1. rewrite tag2_lookup by done. destruct (decide _) as [|n]; [done|].
      exfalso; apply n; auto. }
    rewrite (Hidx es1 j tagged), (Hidx es1 k tagged) by done. simpl.
    rewrite Hupd2 by (unfold es1; by rewrite tag2_length). simpl.
    unfold es1. by rewrite tag2_idem.
  - rewrite (Hidx es j ej), (Hidx es k ek) by done. simpl.
    destruct ((e0 ej =? e0 ek)%Z && (e1 ej =? e1 ek)%Z) eqn:Edup; simpl.
    + by rewrite Hupd2.
    + done.
Qed.

Section TagPair.
(** A buffer [orig] in which the twins [j0 < k0] have no third twin. *)
Variables (orig : list EdgeI) (j0 k0 : nat) (ej ek : EdgeI).
Hypothesis Hj : orig !! j0 = Some ej.
Hypothesis Hk : orig !! k0 = Some ek.
Hypothesis Hjk : j0 < k0.
Hypothesis Htw : twin ej ek.
Hypothesis Honly : forall l el, orig !! l = Some el -> twin el ej -> l = j0 \/ l = k0.

Lemma pair_step_length a b es : length (pair_step a b es) = length es.
Proof.
  unfold pair_step. destruct (es !! a), (es !! b); try done.
  destruct (twinb _ _); [apply tag2_length|done].
Qed.

Lemma pair_step_tagged a b es :
  both_tagged j0 k0 es -> both_tagged j0 k0 (pair_step a b es).
Proof.
  intros [H1 H2]. unfold pair_step.
  destruct (es !! a) as [ea|] eqn:Ea, (es !! b) as [eb|] eqn:Eb; try done.
  destruct (twinb ea eb); [|done].
  apply lookup_lt_Some in Ea, Eb.
  split; rewrite tag2_lookup by done; destruct (decide _); done.
Qed.

Lemma pair_step_inv a b es :
  a <> b -> pair_inv orig j0 k0 ej ek es -> pair_inv orig j0 k0 ej ek (pair_step a b es).
Proof.
  intros Hab [[Hlen Hkept] Hst]. unfold pair_step.
  destruct (es !! a) as [ea|] eqn:Ea, (es !! b) as [eb|] eqn:Eb;
    try (split; [split|]; done).
  destruct (twinb ea eb) eqn:Etw; [|split; [split|]; done].
  apply twinb_twin in Etw.
  pose proof (lookup_lt_Some _ _ _ Ea) as Hal.
  pose proof (lookup_lt_Some _ _ _ Eb) as Hbl.
  split; [split|].
  - by rewrite tag2_length.
  - intros l e. rewrite tag2_lookup by done.
    destruct (decide _); [intros [= <-]; auto|apply Hkept].
  - destruct Hst as [[Hij Hik]|Hdone];
      [|right; pose proof (pair_step_tagged a b es Hdone) as Hd;
        unfold pair_step in Hd; rewrite Ea, Eb in Hd;
        by rewrite (proj2 (twinb_twin ea eb) Etw) in Hd].
    (* an untouched pair stays as it is; a touched one has a tagged twin *)
    assert (Hcase : forall x y ex ey, es !! x = Some ex -> es !! y = Some ey ->
              twin ex ey -> twin ex ej -> (y <> j0 /\ y <> k0) -> ex = tagged).
    { intros x y ex ey Hx Hy Hxy Hxj [Hyj Hyk].
      destruct (Hkept y ey Hy) as [->|Hoy].
      - by apply twin_tagged.
      - destruct (Honly y ey Hoy); [|done..].
        eapply twin_trans; [apply twin_sym; exact Hxy|exact Hxj]. }
    assert (Hjj : twin ej ej) by (left; done).
    assert (Hkj : twin ek ej) by (by apply twin_sym).
    destruct (decide (a = j0)) as [->|Haj], (decide (b = k0)) as [->|Hbk].
    + right. split; rewrite tag2_lookup by done; destruct (decide _) as [|n]; try done;
        exfalso; apply n; auto.
    + destruct (decide (b = j0)) as [->|Hbj]; [done|].
      assert (ej = tagged) as Et.
      { replace ea with ej in * by congruence.
        eapply (Hcase j0 b ej eb); eauto. }
      left. split; rewrite tag2_lookup by done; destruct (decide _) as [[?|?]|?];
        subst; try congruence; try lia.
    + destruct (decide (a = k0)) as [->|Hak]; [lia|].
      assert (ek = tagged) as Et.
      { replace eb with ek in * by congruence.
        eapply (Hcase k0 a ek ea); eauto. by apply twin_sym. }
      left. split; rewrite tag2_lookup by done; destruct (decide _) as [[?|?]|?];
        subst; try congruence; try lia.
    + destruct (decide (a = k0)) as [->|Hak], (decide (b = j0)) as [->|Hbj].
      * right. split; rewrite tag2_lookup by done; destruct (decide _) as [|n]; try done;
          exfalso; apply n; auto.
      * assert (ek = tagged) as Et.
        { replace ea with ek in * by congruence.
          eapply (Hcase k0 b ek eb); eauto. }
        left. split; rewrite tag2_lookup by done; destruct (decide _) as [[?|?]|?];
          subst; try congruence; try lia.
      * assert (ej = tagged) as Et.
        { replace eb with ej in * by congruence.
          eapply (Hcase j0 a ej ea); eauto. by apply twin_sym. }
        left. split; rewrite tag2_lookup by done; destruct (decide _) as [[?|?]|?];
          subst; try congruence; try lia.
      * left. split; rewrite tag2_lookup by done; destruct (decide _) as [[?|?]|?];
          subst; try congruence; try lia.
Qed.

Lemma pair_step_hit es : pair_inv orig j0 k0 ej ek es -> both_tagged j0 k0 (pair_step j0 k0 es).
Proof.
  intros [[Hlen _] [[Hij Hik]|Hd]]; [|by apply pair_step_tagged].
  unfold pair_step. rewrite Hij, Hik.
  rewrite (proj2 (twinb_twin ej ek) Htw).
  apply lookup_lt_Some in Hij, Hik.
  split; rewrite tag2_lookup by done; destruct (decide _) as [|n]; try done;
    exfalso; apply n; auto.
Qed.

Lemma pair_inv_start : pair_inv orig j0 k0 ej ek orig.
Proof. split; [split; [done|auto]|left; split; done]. Qed.

(** The inner loop for the outer index [a]. *)
Lemma tag_inner_loop (a : Z) (es : list EdgeI) :
  pair_inv orig j0 k0 ej ek es -> (0 <= a < len orig)%Z ->
  ((Z.of_nat j0 < a)%Z -> both_tagged j0 k0 es) ->
  exists r,
    for_loop (length es) (fun s' => (tg_i s' <? len (tg_es s'))%Z)
      (tag_inner_body a) tag_next (mkTag es (a + 1)) = Ret r /\
    pair_inv orig j0 k0 ej ek (tg_es r) /\
    ((Z.of_nat j0 <= a)%Z -> both_tagged j0 k0 (tg_es r)).
Proof.
  intros Hinv Ha Hdone.
  pose (I := fun s : tag_st =>
    pair_inv orig j0 k0 ej ek (tg_es s) /\ (a + 1 <= tg_i s <= len orig)%Z /\
    (((Z.of_nat j0 < a)%Z \/ (Z.of_nat j0 = a /\ Z.of_nat k0 < tg_i s)%Z) ->
       both_tagged j0 k0 (tg_es s))).
  edestruct (for_loop_total (fun s' => (tg_i s' <? len (tg_es s'))%Z)
              (tag_inner_body a) tag_next I
              (fun s => Z.to_nat (len orig - tg_i s))) with
    (fuel := length es) (s := mkTag es (a + 1)) as (r & Hrun & (Hr1 & Hr2 & Hr3) & Hc).
  - intros [es1 b] (Hq & Hb & Hd) Hcond. simpl in *.
    pose proof Hq as [[Hlen1 _] _].
    assert (len es1 = len orig) as Hl by (unfold len; by rewrite Hlen1).
    apply Z.ltb_lt in Hcond. rewrite Hl in Hcond.
    destruct (idx_in_range es1 a) as (ea & _ & Eea); [lia|].
    destruct (idx_in_range es1 b) as (eb & _ & Eeb); [lia|].
    rewrite (tag_inner_body_spec a b es1 ea eb) by (done || lia).
    eexists. split; [done|].
    assert (Hps : (if twinb ea eb then tag2 (Z.to_nat a) (Z.to_nat b) es1 else es1)
                  = pair_step (Z.to_nat a) (Z.to_nat b) es1)
      by (unfold pair_step; by rewrite Eea, Eeb).
    unfold tag_next, I. simpl. rewrite Hps. split; [|lia].
    split; [apply pair_step_inv; [lia|done]|]. split; [lia|].
    intros [Hlt|[Heq Hk0]].
    + apply pair_step_tagged. apply Hd. by left.
    + destruct (decide (Z.of_nat k0 = b)) as [Hkb|Hkb].
      * replace (Z.to_nat a) with j0 by lia. replace (Z.to_nat b) with k0 by lia.
        by apply pair_step_hit.
      * apply pair_step_tagged. apply Hd. right. lia.
  - split; [done|]. simpl. split; [lia|]. intros [Hlt|[Heq Hk0]]; [auto|].
    lia.
  - simpl. destruct Hinv as [[Hlen _] _]. unfold len. lia.
  - exists r. split; [done|]. split; [done|]. intros Hja. apply Hr3.
    apply Z.ltb_ge in Hc.
    destruct Hr1 as [[Hlen1 _] _].
    assert (len (tg_es r) = len orig) as Hl by (unfold len; by rewrite Hlen1).
    pose proof (lookup_lt_Some _ _ _ Hk) as Hkl. unfold len in *.
    destruct (decide (Z.of_nat j0 = a)); [right|left]; lia.
Qed.

(** The pair is tagged when the two loops are through. *)
Lemma tag_edges_pair :
  exists es', tag_edges orig = Ret es' /\ length es' = length orig /\ both_tagged j0 k0 es'.
Proof.
  pose (J := fun s : tag_st =>
    pair_inv orig j0 k0 ej ek (tg_es s) /\ (0 <= tg_i s)%Z /\
    ((Z.of_nat j0 < tg_i s)%Z -> both_tagged j0 k0 (tg_es s))).
  pose proof (lookup_lt_Some _ _ _ Hk) as Hkl.
  edestruct (for_loop_total (fun s => (tg_i s <? len (tg_es s) - 1)%Z)
              tag_outer_body tag_next J
              (fun s => Z.to_nat (len orig - 1 - tg_i s))) with
    (fuel := length orig) (s := mkTag orig 0) as (r & Hrun & (Hr1 & Hr2 & Hr3) & Hc).
  - intros [es1 a] (Hq & Ha & Hd) Hcond. simpl in *.
    pose proof Hq as [[Hlen1 _] _].
    assert (len es1 = len orig) as Hl by (unfold len; by rewrite Hlen1).
    apply Z.ltb_lt in Hcond. rewrite Hl in Hcond.
    destruct (tag_inner_loop a es1) as (r & Hrun & Hq' & Hd'); [done|lia|done|].
    unfold tag_outer_body. simpl. rewrite Hrun. simpl.
    eexists. split; [done|]. unfold tag_next, J. simpl.
    split; [|lia]. split; [done|]. split; [lia|]. intros Hlt. apply Hd'. lia.
  - split; [apply pair_inv_start|]. simpl. split; [lia|]. lia.
  - simpl. unfold len. lia.
  - unfold tag_edges. rewrite Hrun. simpl. exists (tg_es r).
    destruct Hr1 as [[Hlen1 Hk1] Hst]. split; [done|]. split; [done|].
    apply Hr3. apply Z.ltb_ge in Hc. unfold len in Hc. lia.
Qed.

End TagPair.

(** Whatever the buffer, the two loops return, keep the length, and leave
    every entry as it was or tagged. *)
Lemma tag_edges_kept (es : list EdgeI) :
  exists es', tag_edges es = Ret es' /\ kept es es'.
Proof.
  pose (J := fun s : tag_st => kept es (tg_es s) /\ (0 <= tg_i s)%Z).
  assert (Hstep : forall a b es1, a <> b -> kept es es1 -> kept es (pair_step a b es1)).
  { intros a b es1 Hab [Hlen Hk]. split; [by rewrite pair_step_length|].
    unfold pair_step.
    destruct (es1 !! a) as [ea|] eqn:Ea, (es1 !! b) as [eb|] eqn:Eb; try done.
    destruct (twinb ea eb); [|done].
    apply lookup_lt_Some in Ea, Eb.
    intros l e. rewrite tag2_lookup by done.
    destruct (decide _); [intros [= <-]; auto|apply Hk]. }
  assert (Hinner : forall a es1, kept es es1 -> (0 <= a < len es)%Z ->
    exists r, for_loop (length es1) (fun s' => (tg_i s' <? len (tg_es s'))%Z)
      (tag_inner_body a) tag_next (mkTag es1 (a + 1)) = Ret r /\ kept es (tg_es r)).
  { intros a es1 Hk1 Ha.
    edestruct (for_loop_total (fun s' => (tg_i s' <? len (tg_es s'))%Z)
              (tag_inner_body a) tag_next
              (fun s => kept es (tg_es s) /\ (a + 1 <= tg_i s)%Z)
              (fun s => Z.to_nat (len es - tg_i s))) with
    (fuel := length es1) (s := mkTag es1 (a + 1)) as (r & Hrun & (Hr1 & _) & _).
    - intros [es2 b] (Hq & Hb) Hcond. simpl in *.
      pose proof Hq as [Hlen2 _].
      assert (len es2 = len es) as Hl by (unfold len; by rewrite Hlen2).
      apply Z.ltb_lt in Hcond. rewrite Hl in Hcond.
      destruct (idx_in_range es2 a) as (ea & _ & Eea); [lia|].
      destruct (idx_in_range es2 b) as (eb & _ & Eeb); [lia|].
      rewrite (tag_inner_body_spec a b es2 ea eb) by (done || lia).
      eexists. split; [done|]. unfold tag_next. simpl.
      replace (if twinb ea eb then tag2 (Z.to_nat a) (Z.to_nat b) es2 else es2)
        with (pair_step (Z.to_nat a) (Z.to_nat b) es2)
        by (unfold pair_step; by rewrite Eea, Eeb).
      split; [|lia]. split; [|lia]. apply Hstep; [lia|done].
    - simpl. split; [done|lia].
    - simpl. destruct Hk1 as [Hlen _]. unfold len. lia.
    - eauto. }
  edestruct (for_loop_total (fun s => (tg_i s <? len (tg_es s) - 1)%Z)
              tag_outer_body tag_next J
              (fun s => Z.to_nat (len es - 1 - tg_i s))) with
    (fuel := length es) (s := mkTag es 0) as (r & Hrun & (Hr1 & Hr2) & Hc).
  - intros [es1 a] (Hq & Ha) Hcond. simpl in *.
    pose proof Hq as [Hlen1 _].
    assert (len es1 = len es) as Hl by (unfold len; by rewrite Hlen1).
    apply Z.ltb_lt in Hcond. rewrite Hl in Hcond.
    destruct (Hinner a es1) as (r & Hrun & Hq'); [done|lia|].
    unfold tag_outer_body. simpl. rewrite Hrun. simpl.
    eexists. split; [done|]. unfold tag_next, J. simpl.
    split; [|lia]. split; [done|lia].
  - split; [|simpl; lia]. split; [done|auto].
  - simpl. unfold len. lia.
  - unfold tag_edges. rewrite Hrun. simpl. eauto.
Qed.

(** Claim C6, as stated, fails on a buffer that holds an edge, its reverse
    and the edge again: the first two are tagged, and the third, a twin of
    both, is left as it is. *)
Lemma tag_edges_triple_counterexample :
  ~ cancels_all_twins [(1, 2); (2, 1); (1, 2)]%Z.
Proof.
  intros Hc.
  destruct (Hc [tagged; tagged; (1, 2)%Z] eq_refl 0 2 (1, 2)%Z (1, 2)%Z)
    as [_ H2]; try done.
  by left.
Qed.

(** Claim C6, amended: two twins of a buffer that has no third twin of theirs
    are both tagged after the scan (which returns, keeps the length of the
    buffer and leaves every entry as it was or tagged). *)
Theorem tag_edges_cancels_pair (es : list EdgeI) (j k : nat) (ej ek : EdgeI) :
  es !! j = Some ej -> es !! k = Some ek -> j < k -> twin ej ek ->
  (forall l el, es !! l = Some el -> twin el ej -> l = j \/ l = k) ->
  exists es', tag_edges es = Ret es' /\ length es' = length es /\
    es' !! j = Some tagged /\ es' !! k = Some tagged /\
    (forall l e, es' !! l = Some e -> e = tagged \/ es !! l = Some e).
Proof.
  intros Hj Hk Hjk Htw Honly.
  destruct (tag_edges_pair es j k ej ek Hj Hk Hjk Htw Honly) as (es' & Hrun & Hlen & H1 & H2).
  destruct (tag_edges_kept es) as (es'' & Hrun' & _ & Hkept).
  rewrite Hrun in Hrun'. inversion Hrun'; subst es''.
  exists es'. repeat split; done.
Qed.

Lemma tag_edges_cancels_pair_witness :
  exists es', tag_edges [(1, 2); (3, 4); (2, 1)]%Z = Ret es' /\
    length es' = 3 /\ es' !! 0 = Some tagged /\ es' !! 2 = Some tagged /\
    (forall l e, es' !! l = Some e ->
       e = tagged \/ [(1, 2); (3, 4); (2, 1)]%Z !! l = Some e).
Proof.
  apply (tag_edges_cancels_pair [(1, 2); (3, 4); (2, 1)]%Z 0 2 (1, 2)%Z (2, 1)%Z).
  - reflexivity.
  - reflexivity.
  - lia.
  - right. reflexivity.
  - intros l el Hl Ht. destruct l as [|[|[|l]]]; simpl in Hl; auto.
    + inversion Hl; subst el. destruct Ht as [Ht|Ht]; inversion Ht.
    + inversion Hl.
Defined.

(** ** The loops of [Delaunay2d] return and keep the indices valid *)

Lemma vertex_ok_mono n i i' x : (i <= i')%Z -> vertex_ok n i x -> vertex_ok n i' x.
Proof. unfold vertex_ok. lia. Qed.

Lemma tri_ok_mono n i i' t : (i <= i')%Z -> tri_ok n i t -> tri_ok n i' t.
Proof.
  unfold tri_ok. intros Hi (H0 & H1 & H2 & Hd).
  repeat split; try (eapply vertex_ok_mono; [exact Hi|done]); tauto.
Qed.

Ltac take_idx l i x Hx :=
  let H := fresh "Hidx" in
  destruct (idx_in_range l i) as (x & H & Hx); [|rewrite H; clear H; simpl].

Section ScanLoop.
Context {F : Type} `{Scalar F}.
Variables (vs : V2Set F) (v : V2 F) (n i : Z) (L : nat).
Hypothesis Hvs : len vs = (n + 3)%Z.
Hypothesis Hi : (0 <= i <= n)%Z.

Lemma tri_ok_edges t :
  tri_ok n i t ->
  Forall (edge_ok n i) [(t0 t, t1 t); (t1 t, t2 t); (t2 t, t0 t)].
Proof.
  intros (H0 & H1 & H2 & D0 & D1 & D2).
  repeat apply Forall_cons_2; try apply Forall_nil_2; split; simpl; auto.
Qed.

(** One iteration of the loop over the active triangles. *)
Lemma scan_body_total (s : scan_st) :
  scan_inv n i L s -> (sc_j s <? sc_nt s)%Z = true ->
  exists s', scan_body vs v s = Ret s' /\ scan_inv n i L (scan_next s') /\
    Z.to_nat (sc_nt (scan_next s') - sc_j (scan_next s')) < Z.to_nat (sc_nt s - sc_j s).
Proof.
  destruct s as [ts done es nt j]. unfold scan_inv. simpl.
  intros (Hlt & Hld & Hj & Hnt & Hts & Hes) Hc. apply Z.ltb_lt in Hc.
  unfold scan_body. simpl.
  take_idx done j dj Hdj; [unfold len; lia|].
  destruct dj.
  { eexists. split; [done|]. simpl. repeat split; try done; lia. }
  take_idx ts j tj Htj; [unfold len; lia|].
  pose proof (Forall_lookup_1 _ _ _ _ Hts Htj) as Hok.
  pose proof Hok as (Hv0 & Hv1 & Hv2 & _).
  take_idx vs (t0 tj) va Hva; [unfold vertex_ok in Hv0; lia|].
  take_idx vs (t1 tj) vb Hvb; [unfold vertex_ok in Hv1; lia|].
  take_idx vs (t2 tj) vc Hvc; [unfold vertex_ok in Hv2; lia|].
  destruct (InCircumcircle (va, vb, vc) v) as [inside complete].
  rewrite upd_in_range by (unfold len; lia). simpl.
  destruct inside.
  - take_idx ts (nt - 1)%Z tlast Htl; [unfold len; lia|].
    rewrite upd_in_range by (unfold len; lia). simpl.
    take_idx (<[Z.to_nat j := complete]> done) (nt - 1)%Z dlast Hdl;
      [rewrite len_insert; unfold len; lia|].
    rewrite upd_in_range by (rewrite len_insert; unfold len; lia). simpl.
    eexists. split; [done|]. simpl.
    rewrite !length_insert.
    repeat split; try done; try lia.
    + apply Forall_insert; [done|]. by eapply Forall_lookup_1.
    + rewrite <- !app_assoc. apply Forall_app. split; [done|].
      by apply tri_ok_edges.
  - eexists. split; [done|]. simpl. rewrite length_insert.
    repeat split; try done; lia.
Qed.

(** The loop over the active triangles and the two re-slicings. *)
Lemma scan_total (ts : list TriangleI) (done : list bool) :
  length ts = L -> length done = L -> Forall (tri_ok n i) ts ->
  exists ts' done' es, scan vs v ts done = Ret (ts', done', es) /\
    lockstep ts' done' /\ Forall (tri_ok n i) ts' /\ Forall (edge_ok n i) es.
Proof.
  intros Hlt Hld Hts.
  edestruct (for_loop_total (fun s => (sc_j s <? sc_nt s)%Z) (scan_body vs v) scan_next
               (scan_inv n i L) (fun s => Z.to_nat (sc_nt s - sc_j s))) with
    (fuel := length ts) (s := mkScan ts done [] (len ts) 0)
    as (r & Hrun & (R1 & R2 & R3 & R4 & R5 & R6) & Hc).
  - intros s Hs Hcond. by apply scan_body_total.
  - unfold scan_inv, len. simpl. repeat split; try done; lia.
  - simpl. unfold len. lia.
  - unfold scan. rewrite Hrun. simpl.
    rewrite !reslice_in_range by (unfold len; lia). simpl.
    do 3 eexists. split; [done|]. split; [|split; [|done]].
    + unfold lockstep. rewrite !length_take. lia.
    + by apply Forall_take.
Qed.

End ScanLoop.

Lemma form_triangles_ok (n i : Z) (es : list EdgeI) (ts : list TriangleI) (done : list bool) :
  (0 <= i < n)%Z -> lockstep ts done -> Forall (tri_ok n (i + 1)) ts ->
  Forall (fun e => e = tagged \/ edge_ok n i e) es ->
  lockstep (fst (form_triangles i es ts done)) (snd (form_triangles i es ts done)) /\
  Forall (tri_ok n (i + 1)) (fst (form_triangles i es ts done)).
Proof.
  intros Hi. unfold form_triangles. revert ts done.
  induction es as [|e es IH]; intros ts dn Hl Hts Hes; simpl; [done|].
  apply Forall_cons in Hes as [He Hes].
  unfold form_step at 2 4 6.
  destruct ((e0 e <? 0)%Z || (e1 e <? 0)%Z) eqn:Eneg; [by apply IH|].
  simpl. apply orb_false_iff in Eneg as [E0 E1].
  apply Z.ltb_ge in E0, E1.
  destruct He as [->|(V0 & V1 & D)]; [unfold tagged, e0 in E0; simpl in E0; lia|].
  apply IH; [|apply Forall_app; split; [done|]|done].
  - unfold lockstep in *. rewrite !length_app. simpl. lia.
  - apply Forall_singleton. unfold tri_ok, t0, t1, t2, vertex_ok in *. simpl.
    repeat split; lia.
Qed.

Section InsertLoop.
Context {F : Type} `{Scalar F}.
Variables (vs : V2Set F) (n : Z).
Hypothesis Hvs : len vs = (n + 3)%Z.

(** One vertex is added: the iteration returns. *)
Lemma insert_body_total (s : ins_st) :
  ins_inv n s -> (in_i s <? n)%Z = true ->
  exists s', insert_body vs s = Ret s' /\ ins_inv n (insert_next s') /\
    Z.to_nat (n - in_i (insert_next s')) < Z.to_nat (n - in_i s).
Proof.
  destruct s as [ts done i]. unfold ins_inv. simpl.
  intros (Hi & Hl & Hts) Hc. apply Z.ltb_lt in Hc.
  unfold insert_body. simpl.
  take_idx vs i v Hv; [lia|].
  destruct (scan_total vs v n i (length ts) Hvs Hi ts done)
    as (ts1 & done1 & es & Hscan & Hl1 & Hts1 & Hes); [done|by symmetry|done|].
  rewrite Hscan. simpl.
  destruct (tag_edges_kept es) as (es' & Htag & _ & Hkept).
  rewrite Htag. simpl.
  destruct (form_triangles_ok n i es' ts1 done1) as [Hl2 Hts2];
    [lia|done|eapply Forall_impl; [exact Hts1|intros t; apply tri_ok_mono; lia]| |].
  { apply Forall_lookup. intros l e Hle.
    destruct (Hkept l e Hle) as [->|Ho]; [by left|right].
    by eapply Forall_lookup_1. }
  destruct (form_triangles i es' ts1 done1) as [ts2 done2]. simpl in *.
  eexists. split; [done|]. simpl. repeat split; try done; lia.
Qed.

End InsertLoop.

Section Finalize.
Variables (n : Z) (L : nat).

Lemma fin_body_total (s : fin_st) :
  fin_inv n L s -> (fn_j s <? fn_nt s)%Z = true ->
  exists s', fin_body n s = Ret s' /\ fin_inv n L (fin_next s') /\
    Z.to_nat (fn_nt (fin_next s') - fn_j (fin_next s')) < Z.to_nat (fn_nt s - fn_j s).
Proof.
  destruct s as [ts nt j]. unfold fin_inv. simpl.
  intros (Hl & Hj & Hnt & Hts & Hpre) Hc. apply Z.ltb_lt in Hc.
  unfold fin_body. simpl.
  take_idx ts j t Ht; [unfold len; lia|].
  destruct ((t0 t >=? n)%Z || (t1 t >=? n)%Z || (t2 t >=? n)%Z) eqn:Etest.
  - take_idx ts (nt - 1)%Z tlast Htl; [unfold len; lia|].
    rewrite upd_in_range by (unfold len; lia). simpl.
    eexists. split; [done|]. simpl. rewrite length_insert.
    split_and!; try done; try lia.
    + apply Forall_insert; [done|]. by eapply Forall_lookup_1.
    + intros p t' Hp. rewrite list_lookup_insert_ne by lia. apply Hpre. lia.
  - eexists. split; [done|]. simpl.
    split_and!; try done; try lia.
    intros p t' Hp Hpt.
    destruct (decide (Z.of_nat p = j)) as [Hpj|Hpj]; [|apply (Hpre p); [lia|done]].
    replace (Z.to_nat j) with p in Ht by lia.
    rewrite Hpt in Ht. inversion Ht; subst t'.
    apply orb_false_iff in Etest as [Etest E2].
    apply orb_false_iff in Etest as [E0 E1].
    unfold below. rewrite Z.geb_leb in E0, E1, E2.
    apply Z.leb_gt in E0, E1, E2. done.
Qed.

End Finalize.

(** The last loop returns the triangles without a super-triangle vertex. *)
Lemma finalize_total (n : Z) (ts : list TriangleI) :
  Forall (tri_ok n n) ts ->
  exists ts', finalize n ts = Ret ts' /\ Forall (valid_triangle n) ts'.
Proof.
  intros Hts.
  edestruct (for_loop_total (fun s => (fn_j s <? fn_nt s)%Z) (fin_body n) fin_next
               (fin_inv n (length ts)) (fun s => Z.to_nat (fn_nt s - fn_j s))) with
    (fuel := length ts) (s := mkFin ts (len ts) 0)
    as (r & Hrun & (R1 & R2 & R3 & R4 & R5) & Hc).
  - intros s Hs Hcond. by apply fin_body_total.
  - unfold fin_inv, len. simpl. repeat split; try done; try lia.
  - simpl. unfold len. lia.
  - unfold finalize. rewrite Hrun. simpl.
    rewrite reslice_in_range by (unfold len; lia).
    eexists. split; [done|].
    apply Z.ltb_ge in Hc.
    apply Forall_lookup. intros p t Hp.
    apply lookup_take_Some in Hp as [Hp Hlt].
    pose proof (Forall_lookup_1 _ _ _ _ R4 Hp) as (V0 & V1 & V2 & D).
    destruct (R5 p t) as (B0 & B1 & B2); [lia|done|].
    unfold valid_triangle, vertex_ok in *. repeat split; try tauto; lia.
Qed.

Section Total.
Context {F : Type} `{Scalar F}.

Lemma SuperTriangle_total (vs : V2Set F) :
  vs <> [] -> exists p0 p1 p2, SuperTriangle vs = Ret [p0; p1; p2].
Proof.
  intros Hne. destruct vs as [|a vs]; [done|].
  unfold SuperTriangle.
  destruct (Z.eqb_spec (len (a :: vs)) 0) as [E|_]; [unfold len in E; simpl in E; lia|].
  destruct (len (a :: vs) =? 1)%Z; simpl; eauto.
Qed.

Lemma SuperTriangle_empty : SuperTriangle ([] : V2Set F) = Fail no_vertices.
Proof. reflexivity. Qed.

(** From the sorting on, [Delaunay2d] returns for every non-empty slice, and
    what it returns are valid triangles. *)
Lemma triangulate_total (vs : V2Set F) :
  vs <> [] ->
  exists ts, triangulate vs = Ret ts /\ Forall (valid_triangle (len vs)) ts.
Proof.
  intros Hne. unfold triangulate.
  destruct (SuperTriangle_total vs Hne) as (p0 & p1 & p2 & Hst). rewrite Hst. simpl.
  set (n := len vs). set (vs' := vs ++ [p0; p1; p2]).
  assert (len vs' = (n + 3)%Z) as Hvs' by (unfold vs'; rewrite len_app; done).
  pose proof (len_nonneg vs) as Hn. fold n in Hn.
  edestruct (for_loop_total (fun s => (in_i s <? n)%Z) (insert_body vs') insert_next
               (ins_inv n) (fun s => Z.to_nat (n - in_i s))) with
    (fuel := length vs') (s := mkIns [(n, n + 1, n + 2)%Z] [false] 0)
    as (r & Hrun & (R1 & R2 & R3) & Hc).
  - intros s Hs Hcond. by apply insert_body_total.
  - unfold ins_inv. simpl. split; [lia|]. split; [done|].
    apply Forall_singleton. unfold tri_ok, vertex_ok, t0, t1, t2. simpl.
    repeat split; lia.
  - simpl. unfold len in Hvs'. lia.
  - rewrite Hrun. simpl. apply finalize_total.
    apply Z.ltb_ge in Hc. replace n with (in_i r) at 2 by lia. done.
Qed.

End Total.

(** ** Sorting *)

Section Sorting.
Context {F : Type} `{Scalar F}.

Lemma insertByX_perm (a : V2 F) (s : V2Set F) : Permutation (a :: s) (insertByX a s).
Proof.
  induction s as [|b s IH]; simpl; [done|].
  destruct (V2SetByX_Less b a); [|done].
  rewrite perm_swap. by constructor.
Qed.

Lemma sort_V2SetByX_perm (s : V2Set F) : Permutation s (sort_V2SetByX s).
Proof.
  induction s as [|a s IH]; simpl; [done|].
  rewrite <- insertByX_perm. by constructor.
Qed.

Lemma sort_V2SetByX_length (s : V2Set F) : length (sort_V2SetByX s) = length s.
Proof. symmetry. apply Permutation_length, sort_V2SetByX_perm. Qed.

Lemma sort_V2SetByX_nil (s : V2Set F) : sort_V2SetByX s = [] <-> s = [].
Proof.
  split; [|by intros ->].
  intros E. apply Permutation_nil. rewrite <- E. symmetry. apply sort_V2SetByX_perm.
Qed.

Lemma sort_V2SetByX_cons (a : V2 F) (s : V2Set F) : sort_V2SetByX (a :: s) <> [].
Proof. intros E. pose proof (proj1 (sort_V2SetByX_nil (a :: s)) E). discriminate. Qed.

End Sorting.

(** ** The error contract and the validity of the indices *)

Section Contract.
Context {F : Type} `{Scalar F}.

(** The only failure [Circumcenter] has is the one of its guard. *)
Lemma Circumcenter_outcome (t : Triangle2 F) :
  (exists c, Circumcenter t = Ret c) \/ Circumcenter t = Fail coincident_points.
Proof.
  unfold Circumcenter, Circumcenter_trace. destruct t as [[ta tb] tc].
  repeat (match goal with |- context [if ?b then _ else _] => destruct b end;
          simpl; eauto).
Qed.

(** Claim C3: [Delaunay2d] returns the error [no vertices] on the empty
    slice and a list of triangles, no error, on every other one (it neither
    panics nor runs on for ever); a failing circumcentre only makes
    [InCircumcircle] answer "not inside, done". *)
Theorem Delaunay2d_error_contract (vs : V2Set F) :
  match vs with
  | [] => snd (Delaunay2d vs) = Fail no_vertices
  | _ :: _ => exists ts, snd (Delaunay2d vs) = Ret ts
  end /\
  forall (t : Triangle2 F) (p : V2 F),
    (exists c, Circumcenter t = Ret c) \/
    (Circumcenter t = Fail coincident_points /\ InCircumcircle t p = (false, true)).
Proof.
  split.
  - destruct vs as [|a vs]; [reflexivity|].
    unfold Delaunay2d. simpl snd.
    destruct (triangulate_total (sort_V2SetByX (a :: vs))) as (ts & Hts & _); [|by eauto].
    apply sort_V2SetByX_cons.
  - intros t p.
    destruct (Circumcenter_outcome t) as [Hc|Hc]; [by left|right].
    split; [done|]. unfold InCircumcircle. by rewrite Hc.
Qed.

(** Claim C5: every triangle [Delaunay2d] returns for [n] points has three
    pairwise distinct indices, each in [[0, n)]. *)
Theorem Delaunay2d_valid_indices (vs : V2Set F) (ts : list TriangleI) :
  snd (Delaunay2d vs) = Ret ts ->
  Forall (valid_triangle (len vs)) ts.
Proof.
  unfold Delaunay2d. simpl snd. intros Hrun.
  destruct vs as [|a vs]; [discriminate|].
  destruct (triangulate_total (sort_V2SetByX (a :: vs))) as (ts' & Hts & Hok).
  { apply sort_V2SetByX_cons. }
  rewrite Hts in Hrun. inversion Hrun; subst ts'.
  unfold len in *. by rewrite sort_V2SetByX_length in Hok.
Qed.

End Contract.

(** ** The order of binary64 *)

Lemma SFcompare_antisym (a b : spec_float) :
  SFcompare b a = option_map CompOpp (SFcompare a b).
Proof.
  destruct a as [sa|sa| |sa ma ea], b as [sb|sb| |sb mb eb];
    try destruct sa; try destruct sb; simpl; try reflexivity;
    rewrite (Z.compare_antisym ea eb);
    destruct (ea ?= eb)%Z eqn:E; simpl; try reflexivity;
    change (Pos.compare_cont Eq mb ma) with (Pos.compare mb ma);
    change (Pos.compare_cont Eq ma mb) with (Pos.compare ma mb);
    rewrite (Pos.compare_antisym ma mb); try reflexivity;
    destruct (ma ?= mb)%positive; reflexivity.
Qed.

Lemma SFleb_trans (a b c : spec_float) :
  SFleb a b = true -> SFleb b c = true -> SFleb a c = true.
Proof.
  unfold SFleb.
  destruct a as [sa|sa| |sa ma ea], b as [sb|sb| |sb mb eb], c as [sc|sc| |sc mc ec];
    try destruct sa; try destruct sb; try destruct sc; simpl;
    try reflexivity; try discriminate; try (intros _ H; exact H); try (intros H _; exact H);
    change (Pos.compare_cont Eq) with Pos.compare;
    destruct (Z.compare_spec ea eb), (Z.compare_spec eb ec), (Z.compare_spec ea ec);
    try discriminate; try reflexivity; try lia; subst;
    destruct (Pos.compare_spec ma mb), (Pos.compare_spec mb mc), (Pos.compare_spec ma mc);
    simpl; try discriminate; try reflexivity; try lia.
Qed.

Lemma float_leb_trans (x y z : float) :
  PrimFloat.leb x y = true -> PrimFloat.leb y z = true -> PrimFloat.leb x z = true.
Proof. rewrite !leb_spec. apply SFleb_trans. Qed.

Lemma float_ltb_leb (x y : float) :
  PrimFloat.ltb x y = true -> PrimFloat.leb x y = true.
Proof.
  rewrite ltb_spec, leb_spec. unfold SFltb, SFleb.
  destruct (SFcompare _ _) as [[]|]; try discriminate; reflexivity.
Qed.

Lemma float_not_ltb_leb (x y : float) :
  is_nan x = false -> is_nan y = false ->
  PrimFloat.ltb y x = false -> PrimFloat.leb x y = true.
Proof.
  unfold is_nan. rewrite !FloatAxioms.eqb_spec, ltb_spec, leb_spec.
  unfold SFeqb, SFltb, SFleb.
  rewrite (SFcompare_antisym (Prim2SF x) (Prim2SF y)).
  destruct (Prim2SF x) as [sa|sa| |sa ma ea], (Prim2SF y) as [sb|sb| |sb mb eb];
    simpl; try discriminate; intros _ _;
    try destruct sa; try destruct sb; simpl; try discriminate; try reflexivity;
    destruct (ea ?= eb)%Z; simpl; try discriminate; try reflexivity;
    destruct (Pos.compare_cont Eq ma mb); simpl; try discriminate; reflexivity.
Qed.

Lemma float_ltb_asym (x y : float) :
  PrimFloat.ltb x y = true -> PrimFloat.ltb y x = false.
Proof.
  rewrite !ltb_spec. unfold SFltb.
  rewrite (SFcompare_antisym (Prim2SF x) (Prim2SF y)).
  destruct (SFcompare (Prim2SF x) (Prim2SF y)) as [[]|]; simpl; try discriminate; reflexivity.
Qed.

(** A NaN stays a NaN and compares with nothing. *)
Lemma float_sub_nan (x : float) : PrimFloat.sub x nan = nan.
Proof.
  rewrite <- (SF2Prim_Prim2SF (PrimFloat.sub x nan)), sub_spec.
  change (Prim2SF nan) with S754_nan.
  destruct (Prim2SF x) as [s|s| |s m e]; try destruct s; reflexivity.
Qed.

Lemma float_leb_nan (y : float) : PrimFloat.leb nan y = false.
Proof. rewrite leb_spec. reflexivity. Qed.

(** ** Runs on binary64 *)

Section Binary64.
Variable eps : float.
Let B64 : Scalar float := binary64 eps.
Existing Instance B64.

(** Claim C2 does not hold of the code: whatever the single point, the three
    points returned are the origin, three times.  The half-extent is
    computed into the inner [k], and the outer [p] and [k] stay zero. *)
Theorem SuperTriangle_single_point_collapses (p : V2 float) :
  SuperTriangle [p] = Ret [pt 0 0; pt 0 0; pt 0 0].
Proof. reflexivity. Qed.

(** On the collapsed super-triangle no point is inside, whatever the
    tolerance: either the guard fires, or the centre is a NaN. *)
Lemma InCircumcircle_origin (p : V2 float) :
  fst (InCircumcircle (pt 0 0, pt 0 0, pt 0 0) p) = false.
Proof.
  unfold InCircumcircle, Circumcenter, Circumcenter_trace. cbn.
  destruct (PrimFloat.ltb 0 eps) eqn:Heps; cbn; [reflexivity|].
  rewrite !float_sub_nan. cbn. apply float_leb_nan.
Qed.

(** Claim C7: on a single point [Delaunay2d] returns the empty list of
    triangles and no error, whatever the point and the tolerance. *)
Theorem Delaunay2d_single_point (p : V2 float) :
  Delaunay2d [p] = ([p], Ret []).
Proof.
  unfold Delaunay2d. simpl sort_V2SetByX. f_equal.
  unfold triangulate.
  change (SuperTriangle [p]) with (Ret (A := list (V2 float)) [pt 0 0; pt 0 0; pt 0 0]).
  pose proof (InCircumcircle_origin p) as Hout.
  cbv -[InCircumcircle pt binary64 B64] in Hout |- *.
  destruct (InCircumcircle (pt 0 0, pt 0 0, pt 0 0) p) as [inside complete].
  subst inside. reflexivity.
Qed.

(** A triangle of three collinear points on a line that is not horizontal
    passes the guard, and the general branch divides by [m1 - m2 = 0]: the
    centre is at infinity. *)
Lemma Circumcenter_diagonal :
  PrimFloat.ltb 1 eps = false ->
  Circumcenter_trace (pt 0 0, pt 1 1, pt 2 2)
  = Ret (pt infinity neg_infinity, [1; 1; 0]%float).
Proof.
  intros Heps. unfold Circumcenter_trace. cbn. rewrite Heps. reflexivity.
Qed.

End Binary64.

(** The scenario of the spec. *)
Lemma Delaunay2d_single_point_5_5 :
  @Delaunay2d _ (binary64 eps12) [pt 5 5] = ([pt 5 5], Ret []).
Proof. vm_compute. reflexivity. Qed.

(** Claim C9 does not hold of the code: for the collinear triangle
    [(0,0), (1,1), (2,2)] the call returns without an error and one of its
    denominators, [m1 - m2], is zero. *)
Theorem Circumcenter_divides_by_zero :
  @Circumcenter_trace _ (binary64 eps12) (pt 0 0, pt 1 1, pt 2 2)
    = Ret (pt infinity neg_infinity, [1; 1; 0]%float) /\
  @divisors_nonzero _ (binary64 eps12) (pt 0 0, pt 1 1, pt 2 2) = false.
Proof. split; reflexivity. Qed.

(** In exact arithmetic and with a positive tolerance the two slope
    denominators are guarded: where [Circumcenter] divides by [y2 - y1] or
    by [y3 - y2], it is not zero.  Nothing guards [m1 - m2]. *)
Lemma Circumcenter_slopes_guarded (eps : Q) (t : Triangle2 Q) (c : V2 Q) (ds : list Q) :
  (0 < eps)%Q ->
  @Circumcenter_trace _ (exactQ eps) t = Ret (c, ds) ->
  match ds with
  | [d] => ~ (d == 0)%Q
  | [d1; d2; _] => ~ (d1 == 0)%Q /\ ~ (d2 == 0)%Q
  | _ => False
  end.
Proof.
  intros Heps. destruct t as [[[x1 y1] [x2 y2]] [x3 y3]].
  assert (Hguard : forall a b : Q,
            negb (Qle_bool eps (Qabs (a - b))) = false -> ~ (b - a == 0)%Q).
  { intros a b Hg Hz. apply negb_false_iff, Qle_bool_iff in Hg.
    assert (a - b == 0)%Q as Hz' by lra.
    rewrite Hz' in Hg. change (Qabs 0) with 0%Q in Hg. lra. }
  cbv [Circumcenter_trace X Y flt fsub Abs EPSILON exactQ].
  destruct (negb (Qle_bool eps (Qabs (y1 - y2)))) eqn:E1,
           (negb (Qle_bool eps (Qabs (y2 - y3)))) eqn:E2;
    simpl; intros Hrun; inversion Hrun; subst; clear Hrun; auto.
Qed.

(** Claim C1 does not hold of the code: on [five_points] the triangle
    [(1, 2, 4)] is returned, its circle as [Circumcenter] computes it has
    centre [(3, -4)] and squared radius [25], and the input point [3], which
    is [(3, 0)] and no vertex of it, is at squared distance [16]. *)
Theorem Delaunay2d_five_points :
  @Delaunay2d _ (binary64 eps12) five_points
    = ([pt 0 2; pt 0 0; pt 3 1; pt 3 0; pt 3 1],
       Ret [(2, 0, 4); (3, 1, 4); (1, 0, 2); (1, 2, 4)]%Z) /\
  @Circumcenter _ (binary64 eps12) (pt 0 0, pt 3 1, pt 3 1) = Ret (pt 3 (-4)) /\
  @radius2 _ (binary64 eps12) (pt 0 0, pt 3 1, pt 3 1) (pt 3 (-4)) = 25%float /\
  @dist2 _ (binary64 eps12) (pt 3 0) (pt 3 (-4)) = 16%float /\
  @strictly_inside _ (binary64 eps12) (pt 0 0, pt 3 1, pt 3 1) (pt 3 0) = true /\
  @delaunay_property _ (binary64 eps12)
    [pt 0 2; pt 0 0; pt 3 1; pt 3 0; pt 3 1]
    [(2, 0, 4); (3, 1, 4); (1, 0, 2); (1, 2, 4)]%Z = false.
Proof. repeat split; vm_compute; reflexivity. Qed.

(** The same with eight distinct points: the input point [0] is on the circle
    of the returned triangle [(2, 1, 4)], and the two squared distances as
    computed differ by more than the tolerance. *)
Lemma Delaunay2d_eight_points :
  exists vs ts, @Delaunay2d _ (binary64 eps12) eight_points = (vs, Ret ts) /\
    In (2, 1, 4)%Z ts /\
    @empty_circumcircle _ (binary64 eps12) vs (2, 1, 4)%Z = false.
Proof. do 2 eexists. split; [vm_compute; reflexivity|]. split; vm_compute; tauto. Qed.

(** The property does hold of the square. *)
Lemma Delaunay2d_square :
  @Delaunay2d _ (binary64 eps12) [pt 0 0; pt 4 0; pt 4 4; pt 0 4]
    = ([pt 0 0; pt 0 4; pt 4 0; pt 4 4], Ret [(2, 0, 3); (0, 1, 3)]%Z) /\
  @delaunay_property _ (binary64 eps12)
    [pt 0 0; pt 0 4; pt 4 0; pt 4 4] [(2, 0, 3); (0, 1, 3)]%Z = true.
Proof. split; vm_compute; reflexivity. Qed.

Lemma Delaunay2d_valid_indices_witness :
  Forall (valid_triangle 4) [(2, 0, 3); (0, 1, 3)]%Z.
Proof.
  apply (@Delaunay2d_valid_indices _ (binary64 eps12)
           [pt 0 0; pt 4 0; pt 4 4; pt 0 4] [(2, 0, 3); (0, 1, 3)]%Z).
  vm_compute. reflexivity.
Defined.

(** ** The caller's slice after the call *)

Section SortedInPlace.
Variable eps : float.
Let B64 : Scalar float := binary64 eps.
Existing Instance B64.

Lemma insertByX_sorted (a : V2 float) (s : V2Set float) :
  is_nan (X a) = false -> no_nan_x s = true ->
  StronglySorted x_le s -> StronglySorted x_le (insertByX a s).
Proof.
  intros Ha Hs Hsorted. induction Hsorted as [|b s Hsorted IH Hb]; simpl.
  - repeat constructor.
  - simpl in Hs. apply andb_true_iff in Hs as [Hbn Hs].
    apply negb_true_iff in Hbn.
    unfold V2SetByX_Less. simpl.
    destruct (PrimFloat.ltb (X b) (X a)) eqn:E.
    + constructor; [by apply IH|].
      rewrite <- (insertByX_perm a s). constructor; [|done].
      by apply float_ltb_leb.
    + assert (x_le a b) as Hab by (by apply float_not_ltb_leb).
      constructor; [by constructor|]. constructor; [done|].
      eapply Forall_impl; [exact Hb|]. intros c Hbc. unfold x_le in *.
      by eapply float_leb_trans.
Qed.

Lemma no_nan_x_insert (a : V2 float) (s : V2Set float) :
  is_nan (X a) = false -> no_nan_x s = true -> no_nan_x (insertByX a s) = true.
Proof.
  intros Ha Hs. unfold no_nan_x in *. rewrite forallb_forall in *.
  intros x Hx. apply list_elem_of_In in Hx.
  rewrite <- (insertByX_perm a s) in Hx. apply elem_of_cons in Hx as [->|Hx].
  - by rewrite Ha.
  - apply Hs. by apply list_elem_of_In.
Qed.

Lemma sort_V2SetByX_sorted (s : V2Set float) :
  no_nan_x s = true ->
  StronglySorted x_le (sort_V2SetByX s) /\ no_nan_x (sort_V2SetByX s) = true.
Proof.
  induction s as [|a s IH]; simpl; intros Hs; [split; [constructor|done]|].
  apply andb_true_iff in Hs as [Ha Hs]. apply negb_true_iff in Ha.
  destruct (IH Hs) as [IH1 IH2]. split.
  - by apply insertByX_sorted.
  - by apply no_nan_x_insert.
Qed.

Lemma insertByX_Sorted (a : V2 float) (s : V2Set float) :
  Sorted x_not_after s -> Sorted x_not_after (insertByX a s).
Proof.
  intros Hs. induction Hs as [|b s Hs IH Hb]; simpl.
  - repeat constructor.
  - unfold V2SetByX_Less. simpl.
    destruct (PrimFloat.ltb (X b) (X a)) eqn:E.
    + constructor; [done|].
      destruct s as [|c s]; simpl.
      * constructor. by apply float_ltb_asym.
      * inversion Hb; subst. unfold V2SetByX_Less. simpl.
        destruct (PrimFloat.ltb (X c) (X a)); constructor; [done|].
        by apply float_ltb_asym.
    + constructor; [by constructor|]. by constructor.
Qed.

Lemma sort_V2SetByX_Sorted (s : V2Set float) : Sorted x_not_after (sort_V2SetByX s).
Proof.
  induction s as [|a s IH]; simpl; [constructor|]. by apply insertByX_Sorted.
Qed.


End SortedInPlace.


(** Read against the slice after the call the triangles returned for
    [unsorted_points] have the Delaunay property; read against the slice as
    it was before the call they do not. *)
Lemma Delaunay2d_indices_after_not_before :
  @Delaunay2d _ (binary64 eps12) unsorted_points
    = ([pt 0 0; pt 0 1; pt 1 0; pt 2 0], Ret [(2, 1, 3); (0, 1, 2)]%Z) /\
  @delaunay_property _ (binary64 eps12)
    [pt 0 0; pt 0 1; pt 1 0; pt 2 0] [(2, 1, 3); (0, 1, 2)]%Z = true /\
  @delaunay_property _ (binary64 eps12)
    unsorted_points [(2, 1, 3); (0, 1, 2)]%Z = false.
Proof. repeat split; vm_compute; reflexivity. Qed.

(** ** [ts] and [done] in step *)

Lemma obind_Ret {A B : Type} (m : outcome A) (f : A -> outcome B) (b : B) :
  obind m f = Ret b -> exists a, m = Ret a /\ f a = Ret b.
Proof. destruct m; simpl; try discriminate. eauto. Qed.

Ltac inv_bind H x Hx := apply obind_Ret in H as (x & Hx & H).

Section Lockstep.
Context {F : Type} `{Scalar F}.
Variables (vs : V2Set F).

(** One iteration on the two slices is one iteration on the records. *)
Lemma scan_body_refines (v : V2 F) (s s' : scan_st) :
  lockstep (sc_ts s) (sc_done s) -> scan_body vs v s = Ret s' ->
  lockstep (sc_ts s') (sc_done s') /\
  scan_body_paired vs v (pair_of s) = Ret (pair_of s').
Proof.
  destruct s as [ts dn es nt j]. unfold lockstep, pair_of. simpl. intros Hl Hrun.
  unfold scan_body in Hrun. simpl in Hrun. unfold scan_body_paired. simpl.
  inv_bind Hrun dj Hdj. apply idx_Ret in Hdj as [Hj0 Hdj].
  pose proof (lookup_lt_Some _ _ _ Hdj) as Hjl.
  destruct (lookup_lt_is_Some_2 ts (Z.to_nat j)) as [tj Htj]; [lia|].
  assert (idx (zip ts dn) j = Ret (tj, dj)) as Hzj.
  { apply idx_Ret. split; [done|]. apply lookup_zip_with_Some. eauto. }
  rewrite Hzj. simpl.
  destruct dj; [inversion Hrun; subst s'; done|].
  inv_bind Hrun tj' Htj'. apply idx_Ret in Htj' as [_ Htj'].
  rewrite Htj in Htj'. inversion Htj'; subst tj'. clear Htj'.
  inv_bind Hrun va Hva. inv_bind Hrun vb Hvb. inv_bind Hrun vc Hvc.
  rewrite Hva, Hvb, Hvc. simpl.
  destruct (InCircumcircle (va, vb, vc) v) as [inside complete].
  inv_bind Hrun dn1 Hdn1. apply upd_Ret in Hdn1 as [Hr1 ->].
  assert (upd (zip ts dn) j (tj, complete)
          = Ret (zip ts (<[Z.to_nat j := complete]> dn))) as Hz1.
  { rewrite upd_in_range by (unfold len in *; rewrite length_zip_with; lia).
    by rewrite insert_zip_with, (list_insert_id ts _ tj). }
  rewrite Hz1. simpl.
  destruct inside.
  - inv_bind Hrun tlast Htl. apply idx_Ret in Htl as [Hn0 Htl].
    inv_bind Hrun ts1 Hts1. apply upd_Ret in Hts1 as [_ ->].
    inv_bind Hrun dlast Hdl. pose proof Hdl as Hdl'. apply idx_Ret in Hdl' as [_ Hdl'].
    inv_bind Hrun dn2 Hdn2. apply upd_Ret in Hdn2 as [_ ->].
    inversion Hrun; subst s'. simpl.
    split; [by rewrite !length_insert|].
    assert (idx (zip ts (<[Z.to_nat j := complete]> dn)) (nt - 1) = Ret (tlast, dlast)) as Hzl.
    { apply idx_Ret. split; [done|]. apply lookup_zip_with_Some. eauto. }
    rewrite Hzl. simpl.
    rewrite upd_in_range
      by (unfold len in *; rewrite length_zip_with, length_insert; lia).
    by rewrite insert_zip_with.
  - inversion Hrun; subst s'. simpl. split; [by rewrite length_insert|done].
Qed.

(** Every state of the loop over the active triangles has them in step. *)
Lemma scan_reach_lockstep (v : V2 F) (s0 s : scan_st) :
  lockstep (sc_ts s0) (sc_done s0) ->
  loop_reach (fun s => (sc_j s <? sc_nt s)%Z) (scan_body vs v) scan_next s0 s ->
  lockstep (sc_ts s) (sc_done s).
Proof.
  intros H0 Hr.
  apply (loop_reach_inv (fun s => (sc_j s <? sc_nt s)%Z) (scan_body vs v) scan_next
           (fun s => lockstep (sc_ts s) (sc_done s)) s0); try done.
  intros s1 s2 Hs1 _ Hb. by destruct (scan_body_refines v s1 s2 Hs1 Hb).
Qed.

(** "re-size the triangle/done sets": the same cut for both. *)
Lemma reslice_lockstep (ts ts' : list TriangleI) (dn dn' : list bool) (nt : Z) :
  lockstep ts dn -> reslice ts nt = Ret ts' -> reslice dn nt = Ret dn' ->
  lockstep ts' dn' /\ reslice (zip ts dn) nt = Ret (zip ts' dn').
Proof.
  unfold lockstep. intros Hl Ht Hd.
  apply reslice_Ret in Ht as [Hr ->]. apply reslice_Ret in Hd as [_ ->].
  split; [rewrite !length_take; lia|].
  rewrite reslice_in_range by (unfold len in *; rewrite length_zip_with; lia).
  by rewrite zip_with_take.
Qed.

(** The new triangles are appended each with its flag. *)
Lemma form_triangles_refines (i : Z) (es : list EdgeI) (ts : list TriangleI) (dn : list bool) :
  lockstep ts dn ->
  lockstep (fst (form_triangles i es ts dn)) (snd (form_triangles i es ts dn)) /\
  zip (fst (form_triangles i es ts dn)) (snd (form_triangles i es ts dn))
    = form_triangles_paired i es (zip ts dn).
Proof.
  unfold form_triangles, form_triangles_paired. revert ts dn.
  induction es as [|e es IH]; intros ts dn Hl; simpl; [done|].
  unfold form_step at 2 4 6 8, form_step_paired at 2.
  destruct ((e0 e <? 0)%Z || (e1 e <? 0)%Z); [by apply IH|]. simpl.
  replace (zip ts dn ++ [(e0 e, e1 e, i, false)])
    with (zip (ts ++ [(e0 e, e1 e, i)]) (dn ++ [false]))
    by (by rewrite zip_with_app).
  apply IH. unfold lockstep in *. rewrite !length_app. simpl. lia.
Qed.

Lemma scan_lockstep (v : V2 F) (ts ts' : list TriangleI) (dn dn' : list bool) es :
  lockstep ts dn -> scan vs v ts dn = Ret (ts', dn', es) -> lockstep ts' dn'.
Proof.
  intros Hl Hrun. unfold scan in Hrun.
  inv_bind Hrun r Hr. inv_bind Hrun ts1 Hts1. inv_bind Hrun dn1 Hdn1.
  inversion Hrun; subst.
  eapply reslice_lockstep; [|exact Hts1|exact Hdn1].
  eapply (scan_reach_lockstep v (mkScan ts dn [] (len ts) 0)); [done|].
  eapply for_loop_reach; [apply reach_start|exact Hr].
Qed.

Lemma insert_body_lockstep (s s' : ins_st) :
  lockstep (in_ts s) (in_done s) -> insert_body vs s = Ret s' ->
  lockstep (in_ts s') (in_done s').
Proof.
  intros Hl Hrun. unfold insert_body in Hrun.
  inv_bind Hrun v Hv. inv_bind Hrun r Hr. destruct r as [[ts1 dn1] es].
  inv_bind Hrun es' Hes'.
  pose proof (scan_lockstep v _ _ _ _ _ Hl Hr) as Hl1.
  destruct (form_triangles_refines (in_i s) es' ts1 dn1 Hl1) as [Hl2 _].
  destruct (form_triangles (in_i s) es' ts1 dn1) as [ts2 dn2].
  inversion Hrun; subst s'. done.
Qed.

(** The run of [triangulate] passes through such states: what it hands to
    the last loop is a state of the loop over the vertices. *)
Lemma triangulate_reach (ts : list TriangleI) :
  triangulate vs = Ret ts ->
  exists t r,
    SuperTriangle vs = Ret t /\
    loop_reach (fun s => (in_i s <? len vs)%Z) (insert_body (vs ++ t)) insert_next
      (mkIns [(len vs, len vs + 1, len vs + 2)%Z] [false] 0) r /\
    finalize (len vs) (in_ts r) = Ret ts.
Proof.
  unfold triangulate. intros Hrun.
  inv_bind Hrun t Ht. inv_bind Hrun r Hr.
  exists t, r. split; [done|]. split; [|done].
  eapply for_loop_reach; [apply reach_start|exact Hr].
Qed.

End Lockstep.


(** ** The super-triangle of two or more points *)

Lemma SuperTriangle_formula {F : Type} `{Scalar F} (s : V2Set F) :
  2 <= length s ->
  exists b, bounding_box s = Ret b /\
    SuperTriangle s
      = Ret (super_points (Box2_Center b) (fmul (V2_MaxComponent (Box2_Size b)) lit_2)).
Proof.
  intros Hlen. destruct s as [|a [|a' s]]; simpl in Hlen; try lia.
  unfold SuperTriangle, bounding_box, V2Set_Min, V2Set_Max.
  destruct (Z.eqb_spec (len (a :: a' :: s)) 0) as [E|_];
    [unfold len in E; simpl in E; lia|].
  destruct (Z.eqb_spec (len (a :: a' :: s)) 1) as [E|_];
    [unfold len in E; simpl in E; lia|].
  simpl. eexists. split; reflexivity.
Qed.

Section ExactEnclosure.
Variable eps : Q.
Let QS : Scalar Q := exactQ eps.
Existing Instance QS.

Lemma fold_V2_Min_le (s : V2Set Q) (a : V2 Q) :
  (X (fold_left V2_Min s a) <= X a /\ Y (fold_left V2_Min s a) <= Y a)%Q /\
  Forall (fun q => X (fold_left V2_Min s a) <= X q /\ Y (fold_left V2_Min s a) <= Y q)%Q s.
Proof.
  revert a. induction s as [|b s IH]; intros a; simpl.
  - split; [split; apply Qle_refl|constructor].
  - destruct (IH (V2_Min a b)) as [[Hx Hy] Hall]. simpl in Hx, Hy.
    pose proof (Q.le_min_l (X a) (X b)). pose proof (Q.le_min_r (X a) (X b)).
    pose proof (Q.le_min_l (Y a) (Y b)). pose proof (Q.le_min_r (Y a) (Y b)).
    split; [split; eapply Qle_trans; eauto|].
    constructor; [split; eapply Qle_trans; eauto|done].
Qed.

Lemma fold_V2_Max_ge (s : V2Set Q) (a : V2 Q) :
  (X a <= X (fold_left V2_Max s a) /\ Y a <= Y (fold_left V2_Max s a))%Q /\
  Forall (fun q => X q <= X (fold_left V2_Max s a) /\ Y q <= Y (fold_left V2_Max s a))%Q s.
Proof.
  revert a. induction s as [|b s IH]; intros a; simpl.
  - split; [split; apply Qle_refl|constructor].
  - destruct (IH (V2_Max a b)) as [[Hx Hy] Hall]. simpl in Hx, Hy.
    pose proof (Q.le_max_l (X a) (X b)). pose proof (Q.le_max_r (X a) (X b)).
    pose proof (Q.le_max_l (Y a) (Y b)). pose proof (Q.le_max_r (Y a) (Y b)).
    split; [split; eapply Qle_trans; eauto|].
    constructor; [split; eapply Qle_trans; eauto|done].
Qed.

Lemma super_points_enclose (mn mx q : V2 Q) :
  (X mn <= X q <= X mx)%Q -> (Y mn <= Y q <= Y mx)%Q ->
  encloses (super_points (Box2_Center (mkBox2 mn mx))
              (fmul (V2_MaxComponent (Box2_Size (mkBox2 mn mx))) lit_2)) q = true.
Proof.
  destruct mn as [ax ay], mx as [bx by_], q as [qx qy].
  cbv [X Y]. intros [Hx1 Hx2] [Hy1 Hy2].
  cbv [encloses super_points cross between Box2_Center Box2_Size V2_MaxComponent
       V2_Add V2_Sub V2_MulScalar X Y BMin BMax fadd fsub fmul fneg fle
       lit_0 lit_2 lit_0_5 math_Max Abs QS exactQ].
  set (M := Qmax (Qabs (bx - ax)) (Qabs (by_ - ay))).
  assert (bx - ax <= M)%Q as Hw.
  { eapply Qle_trans; [apply Qle_Qabs|apply Q.le_max_l]. }
  assert (by_ - ay <= M)%Q as Hh.
  { eapply Qle_trans; [apply Qle_Qabs|apply Q.le_max_r]. }
  clearbody M.
  assert (0 <= M)%Q as HM by lra.
  set (cx := (ax + (bx - ax) * (1 # 2))%Q).
  set (cy := (ay + (by_ - ay) * (1 # 2))%Q).
  assert (0 <= M * (M * 2 + 2 * (qx - cx) - (qy - cy)))%Q as P0.
  { apply Qmult_le_0_compat; [done|]. unfold cx, cy. lra. }
  assert (0 <= M * (M * 2 - 2 * (qx - cx) - (qy - cy)))%Q as P1.
  { apply Qmult_le_0_compat; [done|]. unfold cx, cy. lra. }
  assert (0 <= M * (M * 2 + (qy - cy)))%Q as P2.
  { apply Qmult_le_0_compat; [done|]. unfold cx, cy. lra. }
  apply andb_true_intro. split; [apply andb_true_intro; split|].
  - apply orb_true_intro. left.
    repeat (apply andb_true_intro; split); apply Qle_bool_iff.
    + nra.
    + nra.
    + nra.
  - apply orb_true_intro. right. apply orb_true_intro. right.
    apply andb_true_intro; split; apply Qle_bool_iff; unfold cx; lra.
  - apply orb_true_intro. left. apply orb_true_intro. left. apply orb_true_intro. left.
    apply andb_true_intro; split; apply Qle_bool_iff; unfold cy; lra.
Qed.
Lemma super_points_enclose_strictly (mn mx q : V2 Q) :
  (X mn <= X q <= X mx)%Q -> (Y mn <= Y q <= Y mx)%Q ->
  (0 < fmul (V2_MaxComponent (Box2_Size (mkBox2 mn mx))) lit_2)%Q ->
  strictly_encloses (super_points (Box2_Center (mkBox2 mn mx))
              (fmul (V2_MaxComponent (Box2_Size (mkBox2 mn mx))) lit_2)) q = true.
Proof.
  destruct mn as [ax ay], mx as [bx by_], q as [qx qy].
  cbv [X Y]. intros [Hx1 Hx2] [Hy1 Hy2].
  cbv [strictly_encloses super_points cross Box2_Center Box2_Size V2_MaxComponent
       V2_Add V2_Sub V2_MulScalar X Y BMin BMax fadd fsub fmul fneg flt
       lit_0 lit_2 lit_0_5 math_Max Abs QS exactQ].
  set (M := Qmax (Qabs (bx - ax)) (Qabs (by_ - ay))).
  assert (bx - ax <= M)%Q as Hw.
  { eapply Qle_trans; [apply Qle_Qabs|apply Q.le_max_l]. }
  assert (by_ - ay <= M)%Q as Hh.
  { eapply Qle_trans; [apply Qle_Qabs|apply Q.le_max_r]. }
  clearbody M. intros HM2.
  assert (0 < M)%Q as HM by lra.
  set (cx := (ax + (bx - ax) * (1 # 2))%Q).
  set (cy := (ay + (by_ - ay) * (1 # 2))%Q).
  assert (0 < M * (M * 2 + 2 * (qx - cx) - (qy - cy)))%Q as P0.
  { apply Qmult_lt_0_compat; [done|]. unfold cx, cy. lra. }
  assert (0 < M * (M * 2 - 2 * (qx - cx) - (qy - cy)))%Q as P1.
  { apply Qmult_lt_0_compat; [done|]. unfold cx, cy. lra. }
  assert (0 < M * (M * 2 + (qy - cy)))%Q as P2.
  { apply Qmult_lt_0_compat; [done|]. unfold cx, cy. lra. }
  apply orb_true_intro. left.
  repeat (apply andb_true_intro; split); apply negb_true_iff;
    apply not_true_is_false; intros Hle; apply Qle_bool_iff in Hle; nra.
Qed.


End ExactEnclosure.


(** The run of the witness: the three points, and the input inside. *)
Lemma SuperTriangle_exact_run :
  @SuperTriangle _ (exactQ (1 # 1000)) [qpt 0 0; qpt 4 0; qpt 0 4]
    = Ret [qpt (-12 # 2) (-12 # 2); qpt (4 # 2) (20 # 2); qpt (20 # 2) (-12 # 2)] /\
  forallb (@strictly_encloses _ (exactQ (1 # 1000))
             [qpt (-12 # 2) (-12 # 2); qpt (4 # 2) (20 # 2); qpt (20 # 2) (-12 # 2)])
    [qpt 0 0; qpt 4 0; qpt 0 4] = true.
Proof. split; vm_compute; reflexivity. Qed.


(** On binary64 and small coordinates the three points are as in exact
    arithmetic, and they enclose the input. *)
Lemma SuperTriangle_three_points :
  @SuperTriangle _ (binary64 eps12) [pt 0 0; pt 4 0; pt 0 4]
    = Ret [pt (-6) (-6); pt 2 10; pt 10 (-6)] /\
  forallb (@encloses _ (binary64 eps12) [pt (-6) (-6); pt 2 10; pt 10 (-6)])
    [pt 0 0; pt 4 0; pt 0 4] = true.
Proof. split; vm_compute; reflexivity. Qed.

(** ** More on the edge cancellation *)

Lemma pair_step_lookup (a b : nat) (es : list EdgeI) (l : nat) (e : EdgeI) :
  pair_step a b es !! l = Some e -> e = tagged \/ es !! l = Some e.
Proof.
  unfold pair_step.
  destruct (es !! a) as [ea|] eqn:Ea, (es !! b) as [eb|] eqn:Eb; auto.
  destruct (twinb ea eb); auto.
  apply lookup_lt_Some in Ea, Eb. rewrite tag2_lookup by done.
  destruct (decide _); [intros [= <-]|]; auto.
Qed.

Lemma pair_step_tagged_stays (a b : nat) (es : list EdgeI) (l : nat) :
  es !! l = Some tagged -> pair_step a b es !! l = Some tagged.
Proof.
  intros Hl. unfold pair_step.
  destruct (es !! a) as [ea|] eqn:Ea, (es !! b) as [eb|] eqn:Eb; auto.
  destruct (twinb ea eb); auto.
  apply lookup_lt_Some in Ea, Eb. rewrite tag2_lookup by done.
  by destruct (decide _).
Qed.

Section TagRun.
(** The two loops visit every pair [(a, b)] with [a < b] once, in
    lexicographic order: a property [K] that every visit keeps holds at the
    end, and so does a property [G] that the visit of [(j0, k0)] establishes
    and every visit keeps. *)
Variables (L : nat) (K G : list EdgeI -> Prop) (j0 k0 : nat).
Hypothesis HKlen : forall es, K es -> length es = L.
Hypothesis HK : forall a b es, a < b -> b < L -> K es -> K (pair_step a b es).
Hypothesis HG : forall a b es, a < b -> b < L -> K es -> G es -> G (pair_step a b es).
Hypothesis Hhit : forall es, K es -> G (pair_step j0 k0 es).

Lemma tag_run_inner (a : Z) (es : list EdgeI) :
  K es -> (0 <= a < Z.of_nat L)%Z ->
  (j0 < k0 < L -> (Z.of_nat j0 < a)%Z -> G es) ->
  exists r,
    for_loop (length es) (fun s' => (tg_i s' <? len (tg_es s'))%Z)
      (tag_inner_body a) tag_next (mkTag es (a + 1)) = Ret r /\
    K (tg_es r) /\
    (j0 < k0 < L -> (Z.of_nat j0 <= a)%Z -> G (tg_es r)).
Proof.
  intros Hinv Ha Hdone.
  pose (I := fun s : tag_st =>
    K (tg_es s) /\ (a + 1 <= tg_i s <= Z.of_nat L)%Z /\
    (j0 < k0 < L ->
     ((Z.of_nat j0 < a)%Z \/ (Z.of_nat j0 = a /\ Z.of_nat k0 < tg_i s)%Z) ->
       G (tg_es s))).
  edestruct (for_loop_total (fun s' => (tg_i s' <? len (tg_es s'))%Z)
              (tag_inner_body a) tag_next I
              (fun s => Z.to_nat (Z.of_nat L - tg_i s))) with
    (fuel := length es) (s := mkTag es (a + 1)) as (r & Hrun & (Hr1 & Hr2 & Hr3) & Hc).
  - intros [es1 b] (Hq & Hb & Hd) Hcond. simpl in *.
    pose proof (HKlen _ Hq) as Hlen1.
    apply Z.ltb_lt in Hcond. unfold len in Hcond. rewrite Hlen1 in Hcond.
    destruct (idx_in_range es1 a) as (ea & _ & Eea); [unfold len; lia|].
    destruct (idx_in_range es1 b) as (eb & _ & Eeb); [unfold len; lia|].
    rewrite (tag_inner_body_spec a b es1 ea eb) by (done || lia).
    eexists. split; [done|].
    assert (Hps : (if twinb ea eb then tag2 (Z.to_nat a) (Z.to_nat b) es1 else es1)
                  = pair_step (Z.to_nat a) (Z.to_nat b) es1)
      by (unfold pair_step; by rewrite Eea, Eeb).
    unfold tag_next, I. simpl. rewrite Hps. split; [|lia].
    split; [apply HK; [lia|lia|done]|]. split; [lia|].
    intros Hjk [Hlt|[Heq Hk0]].
    + apply HG; [lia|lia|done|]. apply Hd; [done|]. by left.
    + destruct (decide (Z.of_nat k0 = b)) as [Hkb|Hkb].
      * replace (Z.to_nat a) with j0 by lia. replace (Z.to_nat b) with k0 by lia.
        by apply Hhit.
      * apply HG; [lia|lia|done|]. apply Hd; [done|]. right. lia.
  - split; [done|]. simpl. split; [lia|]. intros Hjk [Hlt|[Heq Hk0]]; [auto|].
    lia.
  - simpl. rewrite (HKlen _ Hinv). lia.
  - exists r. split; [done|]. split; [done|]. intros Hjk Hja. apply Hr3; [done|].
    apply Z.ltb_ge in Hc. unfold len in Hc. rewrite (HKlen _ Hr1) in Hc.
    destruct (decide (Z.of_nat j0 = a)); [right|left]; lia.
Qed.

Lemma tag_run (es : list EdgeI) :
  K es -> exists es', tag_edges es = Ret es' /\ K es' /\ (j0 < k0 < L -> G es').
Proof.
  intros Hes.
  pose (J := fun s : tag_st =>
    K (tg_es s) /\ (0 <= tg_i s)%Z /\
    (j0 < k0 < L -> (Z.of_nat j0 < tg_i s)%Z -> G (tg_es s))).
  edestruct (for_loop_total (fun s => (tg_i s <? len (tg_es s) - 1)%Z)
              tag_outer_body tag_next J
              (fun s => Z.to_nat (Z.of_nat L - 1 - tg_i s))) with
    (fuel := length es) (s := mkTag es 0) as (r & Hrun & (Hr1 & Hr2 & Hr3) & Hc).
  - intros [es1 a] (Hq & Ha & Hd) Hcond. simpl in *.
    pose proof (HKlen _ Hq) as Hlen1.
    apply Z.ltb_lt in Hcond. unfold len in Hcond. rewrite Hlen1 in Hcond.
    destruct (tag_run_inner a es1) as (r & Hrun & Hq' & Hd'); [done|lia|done|].
    unfold tag_outer_body. simpl. rewrite Hrun. simpl.
    eexists. split; [done|]. unfold tag_next, J. simpl.
    split; [|lia]. split; [done|]. split; [lia|]. intros Hjk Hlt. apply Hd'; [done|lia].
  - split; [done|]. simpl. split; [lia|]. lia.
  - simpl. rewrite (HKlen _ Hes). lia.
  - unfold tag_edges. rewrite Hrun. simpl. exists (tg_es r).
    split; [done|]. split; [done|]. intros Hjk.
    apply Hr3; [done|]. apply Z.ltb_ge in Hc. unfold len in Hc.
    rewrite (HKlen _ Hr1) in Hc. lia.
Qed.

End TagRun.

Lemma pair_step_kept (orig : list EdgeI) (a b : nat) (es : list EdgeI) :
  kept orig es -> kept orig (pair_step a b es).
Proof.
  intros [Hlen Hk]. split; [by rewrite pair_step_length|].
  intros l e Hl. destruct (pair_step_lookup a b es l e Hl); auto.
Qed.

(** What the two loops leave untagged holds no two twins. *)
Lemma tag_edges_twin_free (es : list EdgeI) :
  exists es', tag_edges es = Ret es' /\
    forall j k ej ek, j <> k -> es' !! j = Some ej -> es' !! k = Some ek ->
      ej <> tagged -> ek <> tagged -> ~ twin ej ek.
Proof.
  destruct (tag_edges_kept es) as (es' & Hrun & Hlen & _).
  exists es'. split; [done|].
  assert (Hlt : forall j k ej ek, j < k -> es' !! j = Some ej -> es' !! k = Some ek ->
            ej <> tagged -> ek <> tagged -> ~ twin ej ek).
  { intros j k ej ek Hjk Hj Hk Nj Nk Htw.
    pose (G := fun es1 : list EdgeI => forall ej ek,
                 es1 !! j = Some ej -> es1 !! k = Some ek ->
                 ej = tagged \/ ek = tagged \/ ~ twin ej ek).
    destruct (tag_run (length es) (fun es1 => length es1 = length es) G j k) with (es := es)
      as (es'' & Hrun' & _ & HG); try done.
    - intros a b es1 _ _ Hl. by rewrite pair_step_length.
    - intros a b es1 _ _ _ Hg fj fk Hfj Hfk.
      destruct (pair_step_lookup _ _ _ _ _ Hfj) as [->|Hoj]; [by left|].
      destruct (pair_step_lookup _ _ _ _ _ Hfk) as [->|Hok]; [by right; left|].
      by apply Hg.
    - intros es1 Hl fj fk. unfold pair_step.
      destruct (es1 !! j) as [gj|] eqn:Ej, (es1 !! k) as [gk|] eqn:Ek;
        try (intros; congruence).
      destruct (twinb gj gk) eqn:Etw.
      + apply lookup_lt_Some in Ej, Ek. rewrite !tag2_lookup by done.
        destruct (decide _) as [|n]; [intros [= <-]; by left|].
        exfalso; apply n; auto.
      + rewrite Ej, Ek. intros [= <-] [= <-]. right. right.
        intros Ht. apply twinb_twin in Ht. congruence.
    - rewrite Hrun in Hrun'. inversion Hrun'; subst es''.
      apply lookup_lt_Some in Hk as Hkl.
      destruct (HG ltac:(lia) ej ek Hj Hk) as [?|[?|?]]; done. }
  intros j k ej ek Hne Hj Hk Nj Nk Htw.
  destruct (decide (j < k)) as [Hjk|Hjk].
  - by apply (Hlt j k ej ek).
  - apply (Hlt k j ek ej); try done; [lia|by apply twin_sym].
Qed.

(** X1: whatever the buffer, the two loops of "Tag multiple edges" return,
    and no two of the entries they leave untagged are twins: what is left
    holds no edge twice, in the same or in opposite directions. *)
Theorem tag_edges_survivors_twin_free (es : list EdgeI) :
  exists es', tag_edges es = Ret es' /\
    forall j k ej ek, j <> k -> es' !! j = Some ej -> es' !! k = Some ek ->
      ej <> tagged -> ek <> tagged -> ~ twin ej ek.
Proof. exact (tag_edges_twin_free es). Qed.

(** X2: an edge of the buffer that has no twin at another position is still
    in its place after "Tag multiple edges": the edges on the border of the
    hole survive the cancellation. *)
Theorem tag_edges_keeps_unpaired (es : list EdgeI) (l : nat) (e : EdgeI) :
  es !! l = Some e ->
  (forall m em, m <> l -> es !! m = Some em -> ~ twin e em) ->
  exists es', tag_edges es = Ret es' /\ length es' = length es /\ es' !! l = Some e.
Proof.
  intros Hl Hfree.
  destruct (tag_run (length es) (fun es1 => kept es es1 /\ es1 !! l = Some e)
              (fun _ => True) 0 0) with (es := es) as (es' & Hrun & [[Hlen _] Hl'] & _);
    try done.
  - by intros es1 [[Hlen _] _].
  - intros a b es1 Hab Hb [Hk Hl1]. split; [by apply pair_step_kept|].
    unfold pair_step.
    destruct (es1 !! a) as [ea|] eqn:Ea, (es1 !! b) as [eb|] eqn:Eb; try done.
    destruct (twinb ea eb) eqn:Etw; [|done].
    apply twinb_twin in Etw.
    pose proof (lookup_lt_Some _ _ _ Ea) as Hal.
    pose proof (lookup_lt_Some _ _ _ Eb) as Hbl.
    rewrite tag2_lookup by done.
    destruct (decide _) as [[->| ->]|]; [| |done].
    + replace ea with e in * by congruence.
      destruct (proj2 Hk b eb Eb) as [->|Hob].
      * by rewrite (twin_tagged e Etw).
      * destruct (Hfree b eb); [lia|done|done].
    + replace eb with e in * by congruence.
      destruct (proj2 Hk a ea Ea) as [->|Hoa].
      * apply twin_sym in Etw. by rewrite (twin_tagged e Etw).
      * destruct (Hfree a ea); [lia|done|by apply twin_sym].
  - split; [split; [done|auto]|done].
  - eauto.
Qed.

Lemma tag_edges_keeps_unpaired_witness :
  exists es', tag_edges [(1, 2); (3, 4); (2, 1)]%Z = Ret es' /\
    length es' = length [(1, 2); (3, 4); (2, 1)]%Z /\ es' !! 1 = Some (3, 4)%Z.
Proof.
  apply (tag_edges_keeps_unpaired [(1, 2); (3, 4); (2, 1)]%Z 1 (3, 4)%Z).
  - reflexivity.
  - intros m em Hm Hem [Ht|Ht]; destruct m as [|[|[|m]]]; simpl in Hem;
      try lia; inversion Hem as [He]; rewrite <- He in Ht; inversion Ht.
Defined.

(** ** The circumcircle in exact arithmetic *)

Section ExactCircle.
Variable eps : Q.
Let QS : Scalar Q := exactQ eps.
Existing Instance QS.

Lemma flt_Q_true (a b : Q) : negb (Qle_bool b a) = true <-> (a < b)%Q.
Proof.
  rewrite negb_true_iff. split.
  - intros E. apply Qnot_le_lt. intros Hle. apply Qle_bool_iff in Hle. congruence.
  - intros Hlt. destruct (Qle_bool b a) eqn:E; [|done].
    apply Qle_bool_iff in E. lra.
Qed.

Lemma flt_Q_false (a b : Q) : negb (Qle_bool b a) = false <-> (b <= a)%Q.
Proof. rewrite negb_false_iff. apply Qle_bool_iff. Qed.

Lemma Circumcenter_equidistant_gen (t : Triangle2 Q) (c : V2 Q) (ds : list Q) :
  Circumcenter_trace t = Ret (c, ds) ->
  Forall (fun d => ~ (d == 0)%Q) ds ->
  flat_edges_level eps t ->
  equidistant eps t c.
Proof.
  destruct t as [[[x1 y1] [x2 y2]] [x3 y3]].
  cbv [Circumcenter_trace flat_edges_level equidistant dist2 X Y flt fsub fadd fmul fdiv
       fneg Abs EPSILON lit_2 exactQ QS].
  intros Hrun Hds [Hf1 Hf2].
  destruct (negb (Qle_bool eps (Qabs (y1 - y2)))) eqn:E1,
           (negb (Qle_bool eps (Qabs (y2 - y3)))) eqn:E2;
    simpl in Hrun; [discriminate| | |].
  - apply flt_Q_true in E1. specialize (Hf1 E1).
    inversion Hrun; subst; clear Hrun.
    apply Forall_cons in Hds as [Hd _].
    split; [rewrite Hf1|]; field; done.
  - apply flt_Q_true in E2. specialize (Hf2 E2).
    inversion Hrun; subst; clear Hrun.
    apply Forall_cons in Hds as [Hd _].
    split; [|rewrite <- Hf2]; field; done.
  - inversion Hrun; subst; clear Hrun.
    apply Forall_cons in Hds as [Hd1 Hds]. apply Forall_cons in Hds as [Hd2 Hds].
    apply Forall_cons in Hds as [Hd3 _].
    assert (~ - (x2 - x1) * (y3 - y2) - - (x3 - x2) * (y2 - y1) == 0)%Q as Hd.
    { intros E. apply Hd3.
      assert (- (x2 - x1) / (y2 - y1) - - (x3 - x2) / (y3 - y2)
              == (- (x2 - x1) * (y3 - y2) - - (x3 - x2) * (y2 - y1))
                 / ((y2 - y1) * (y3 - y2)))%Q as -> by (field; done).
      rewrite E. field. done. }
    match goal with |- context [if ?b then _ else _] => destruct b end;
      split; field; done.
Qed.

Lemma divisors_nonzero_Forall (t : Triangle2 Q) (c : V2 Q) (ds : list Q) :
  Circumcenter_trace t = Ret (c, ds) -> divisors_nonzero t = true ->
  Forall (fun d => ~ (d == 0)%Q) ds.
Proof.
  unfold divisors_nonzero. intros ->. intros Hall.
  apply Forall_forall. intros d Hd.
  rewrite forallb_forall in Hall. apply list_elem_of_In in Hd.
  specialize (Hall d Hd). apply negb_true_iff in Hall.
  intros Hz. apply Qeq_bool_iff in Hz. simpl in Hall. congruence.
Qed.

Lemma Circumcenter_Ret_trace (t : Triangle2 Q) (c : V2 Q) :
  Circumcenter t = Ret c -> exists ds, Circumcenter_trace t = Ret (c, ds).
Proof.
  unfold Circumcenter. intros Hrun. inv_bind Hrun r Hr. destruct r as [c' ds].
  inversion Hrun; subst. eauto.
Qed.



Lemma right_of_circle (r2 cx cy px qx qy : Q) :
  (0 < px - cx)%Q -> (r2 < (px - cx) * (px - cx))%Q -> (px <= qx)%Q ->
  (r2 < (qx - cx) * (qx - cx) + (qy - cy) * (qy - cy))%Q.
Proof.
  intros H1 H2 Hpq. set (u := (qy - cy)%Q).
  assert (0 <= u * u)%Q as Hu by (destruct (Qlt_le_dec u 0); nra).
  assert ((px - cx) * (px - cx) <= (qx - cx) * (qx - cx))%Q by nra.
  lra.
Qed.

Lemma done_outside (t : Triangle2 Q) (c p q : V2 Q) :
  Circumcenter t = Ret c -> snd (InCircumcircle t p) = true -> (X p <= X q)%Q ->
  (radius2 t c < dist2 q c)%Q.
Proof.
  intros Hc Hdone Hpq. unfold InCircumcircle in Hdone. rewrite Hc in Hdone.
  destruct t as [[ta tb] tc].
  cbv [radius2 dist2 X Y fst snd flt fsub fadd fmul lit_0 EPSILON exactQ QS] in *.
  apply andb_true_iff in Hdone as [H1 H2].
  apply flt_Q_true in H1, H2.
  destruct p as [px py], q as [qx qy], c as [cx cy], ta as [ax ay].
  by apply (right_of_circle _ cx cy px qx qy).
Qed.


Lemma insertByX_sorted_exact (a : V2 Q) (s : V2Set Q) :
  StronglySorted x_le_exact s -> StronglySorted x_le_exact (insertByX a s).
Proof.
  intros Hsorted. induction Hsorted as [|b s Hsorted IH Hb]; simpl.
  - repeat constructor.
  - unfold V2SetByX_Less. simpl.
    destruct (negb (Qle_bool (X a) (X b))) eqn:E.
    + apply flt_Q_true in E.
      constructor; [by apply IH|].
      rewrite <- (insertByX_perm a s). constructor; [|done].
      unfold x_le_exact. lra.
    + apply flt_Q_false in E.
      constructor; [by constructor|]. constructor; [done|].
      eapply Forall_impl; [exact Hb|]. intros d Hbd. unfold x_le_exact in *. lra.
Qed.

Lemma sort_V2SetByX_sorted_exact (s : V2Set Q) :
  StronglySorted x_le_exact (sort_V2SetByX s).
Proof.
  induction s as [|a s IH]; simpl; [constructor|]. by apply insertByX_sorted_exact.
Qed.

Lemma StronglySorted_lookup_le (s : V2Set Q) (i k : nat) (p q : V2 Q) :
  StronglySorted x_le_exact s -> i <= k -> s !! i = Some p -> s !! k = Some q ->
  x_le_exact p q.
Proof.
  intros Hs. revert i k. induction Hs as [|a s Hs IH Ha]; intros i k Hik Hi Hk; [done|].
  destruct i as [|i], k as [|k]; simpl in *; try lia.
  - inversion Hi; inversion Hk; subst. unfold x_le_exact. lra.
  - inversion Hi; subst. eapply Forall_forall; [exact Ha|]. by eapply list_elem_of_lookup_2.
  - apply (IH i k); [lia|done..].
Qed.


End ExactCircle.





(** ** Removal by overwriting with the last entry *)

(** [ts[j] = ts[nt-1]; nt--]: the first [m + 1] entries, without the one at
    [j], are the first [m] entries afterwards. *)
Lemma take_swap_remove {A : Type} (l : list A) (j m : nat) (x y z : A) :
  j <= m -> l !! j = Some x -> l !! m = Some y -> (j < m -> z = y) ->
  Permutation (take (S m) l) (x :: take m (<[j := z]> l)).
Proof.
  intros Hjm Hj Hm Hz.
  rewrite (take_S_r l m y Hm).
  destruct (decide (j = m)) as [->|Hne].
  - rewrite take_insert_ge by lia.
    replace y with x by congruence. by rewrite Permutation_app_comm.
  - rewrite Hz by lia. rewrite take_insert_lt by lia.
    assert (take m l !! j = Some x) as Hj' by (rewrite lookup_take_lt by lia; done).
    rewrite <- (take_drop_middle (take m l) j x Hj') at 1.
    rewrite insert_take_drop by (apply lookup_lt_Some in Hj'; done).
    rewrite <- !app_assoc. simpl.
    rewrite (Permutation_app_comm (drop (S j) (take m l)) [y]). simpl.
    symmetry. apply Permutation_middle.
Qed.

Lemma filter_all {A : Type} (P : A -> Prop) `{forall x, Decision (P x)} (l : list A) :
  Forall P l -> filter P l = l.
Proof.
  induction 1 as [|x l Hx Hl IH]; [done|].
  rewrite filter_cons_True by done. by rewrite IH.
Qed.

(** ** The last loop keeps what has no super-triangle vertex *)

Lemma fin_test_below (n : Z) (t : TriangleI) :
  (t0 t >=? n)%Z || (t1 t >=? n)%Z || (t2 t >=? n)%Z = false <-> below n t.
Proof.
  unfold below. rewrite !orb_false_iff, !Z.geb_leb, !Z.leb_gt. tauto.
Qed.

Lemma fin_body_perm (n : Z) (ts0 : list TriangleI) (s : fin_st) :
  fin_perm n ts0 s -> (fn_j s <? fn_nt s)%Z = true ->
  exists s', fin_body n s = Ret s' /\ fin_perm n ts0 (fin_next s') /\
    Z.to_nat (fn_nt (fin_next s') - fn_j (fin_next s')) < Z.to_nat (fn_nt s - fn_j s).
Proof.
  destruct s as [ts nt j]. unfold fin_perm. simpl.
  intros (Hl & Hj & Hnt & Hperm & Hpre) Hc. apply Z.ltb_lt in Hc.
  unfold fin_body. simpl.
  take_idx ts j t Ht; [unfold len in *; lia|].
  destruct ((t0 t >=? n)%Z || (t1 t >=? n)%Z || (t2 t >=? n)%Z) eqn:Etest.
  - take_idx ts (nt - 1)%Z tlast Htl; [unfold len in *; lia|].
    rewrite upd_in_range by (unfold len in *; lia). simpl.
    eexists. split; [done|]. simpl. rewrite length_insert.
    split_and!; try done; try lia.
    + rewrite <- Hperm.
      replace (Z.to_nat nt) with (S (Z.to_nat (nt - 1))) by lia.
      rewrite (take_swap_remove ts (Z.to_nat j) (Z.to_nat (nt - 1)) t tlast tlast)
        by (done || lia).
      rewrite filter_cons_False; [done|].
      intros Hb. apply fin_test_below in Hb. congruence.
    + intros p t' Hp. rewrite list_lookup_insert_ne by lia. apply Hpre. lia.
  - eexists. split; [done|]. simpl.
    split_and!; try done; try lia.
    intros p t' Hp Hpt.
    destruct (decide (Z.of_nat p = j)) as [Hpj|Hpj]; [|apply (Hpre p); [lia|done]].
    replace (Z.to_nat j) with p in Ht by lia.
    rewrite Hpt in Ht. inversion Ht; subst t'.
    by apply fin_test_below.
Qed.

(** The last loop returns a permutation of the triangles without a vertex
    of the super-triangle. *)
Lemma finalize_perm (n : Z) (ts : list TriangleI) :
  exists ts', finalize n ts = Ret ts' /\ Permutation ts' (filter (below n) ts).
Proof.
  edestruct (for_loop_total (fun s => (fn_j s <? fn_nt s)%Z) (fin_body n) fin_next
               (fin_perm n ts) (fun s => Z.to_nat (fn_nt s - fn_j s))) with
    (fuel := length ts) (s := mkFin ts (len ts) 0)
    as (r & Hrun & (R1 & R2 & R3 & R4 & R5) & Hc).
  - intros s Hs Hcond. by apply fin_body_perm.
  - unfold fin_perm, len. simpl. split_and!; try done; try lia.
    by rewrite Nat2Z.id, firstn_all.
  - simpl. unfold len. lia.
  - unfold finalize. rewrite Hrun. simpl.
    rewrite reslice_in_range by (unfold len in *; lia).
    eexists. split; [done|].
    apply Z.ltb_ge in Hc. rewrite <- R4. rewrite filter_all; [done|].
    apply Forall_lookup. intros p t Hp.
    apply lookup_take_Some in Hp as [Hp Hlt].
    apply (R5 p t); [lia|done].
Qed.

(** X7: the last loop of [Delaunay2d] returns, whatever the triangles, and
    what it returns are, up to their order, the triangles that have no
    vertex of the super-triangle: none of those is lost, none is kept twice,
    and nothing else is kept. *)
Theorem finalize_keeps_below (n : Z) (ts : list TriangleI) :
  exists ts', finalize n ts = Ret ts' /\ Permutation ts' (filter (below n) ts).
Proof. exact (finalize_perm n ts). Qed.

(** ** What the loop over the active triangles does *)

Section ScanSpec.
Context {F : Type} `{Scalar F}.
Variables (vs : V2Set F) (v : V2 F).

(** The three ways through the body of the loop. *)
Lemma scan_body_paired_cases (act : list (TriangleI * bool)) (es : list EdgeI)
    (nt j : Z) (s' : pscan_st) :
  scan_body_paired vs v (mkPScan act es nt j) = Ret s' ->
  (0 <= j)%Z /\ exists tj dj, act !! Z.to_nat j = Some (tj, dj) /\
    ((dj = true /\ s' = mkPScan act es nt j) \/
     (dj = false /\ exists tri c,
        triangle2_of vs tj = Ret tri /\ InCircumcircle tri v = (false, c) /\
        s' = mkPScan (<[Z.to_nat j := (tj, c)]> act) es nt j) \/
     (dj = false /\ exists tri c al,
        triangle2_of vs tj = Ret tri /\ InCircumcircle tri v = (true, c) /\
        (0 <= nt - 1)%Z /\
        (<[Z.to_nat j := (tj, c)]> act) !! Z.to_nat (nt - 1) = Some al /\
        s' = mkPScan (<[Z.to_nat j := al]> act) (es ++ edges_of tj) (nt - 1) (j - 1))).
Proof.
  unfold scan_body_paired. simpl. intros Hrun.
  inv_bind Hrun aj Haj. apply idx_Ret in Haj as [Hj0 Haj].
  split; [done|]. destruct aj as [tj dj]. exists tj, dj. split; [done|].
  simpl in Hrun. destruct dj; [left; by inversion Hrun|right].
  inv_bind Hrun va Hva. inv_bind Hrun vb Hvb. inv_bind Hrun vc Hvc.
  assert (triangle2_of vs tj = Ret (va, vb, vc)) as Htri
    by (unfold triangle2_of; rewrite Hva, Hvb, Hvc; done).
  destruct (InCircumcircle (va, vb, vc) v) as [inside complete] eqn:Ein.
  inv_bind Hrun act1 Hact1. apply upd_Ret in Hact1 as [Hr1 ->].
  destruct inside.
  - right. split; [done|].
    inv_bind Hrun al Hal. apply idx_Ret in Hal as [Hn0 Hal].
    inv_bind Hrun act2 Hact2. apply upd_Ret in Hact2 as [_ ->].
    inversion Hrun; subst s'.
    exists (va, vb, vc), complete, al. split_and!; try done.
    rewrite list_insert_insert_eq. unfold edges_of. by rewrite <- !app_assoc.
  - left. split; [done|]. inversion Hrun; subst s'. eauto.
Qed.

Lemma fst_insert_same (act : list (TriangleI * bool)) (j : nat) (t : TriangleI) (d c : bool) :
  act !! j = Some (t, d) -> (<[j := (t, c)]> act).*1 = act.*1.
Proof.
  intros Hj. rewrite list_fmap_insert. apply list_insert_id.
  by rewrite list_lookup_fmap, Hj.
Qed.

(** One iteration keeps [scan_post]. *)
Lemma scan_post_step (act0 : list (TriangleI * bool)) (s s' : pscan_st) :
  scan_post vs v act0 s -> (ps_j s <? ps_nt s)%Z = true ->
  scan_body_paired vs v s = Ret s' ->
  scan_post vs v act0 (mkPScan (ps_act s') (ps_es s') (ps_nt s') (ps_j s' + 1)).
Proof.
  destruct s as [act es nt j]. unfold scan_post. simpl.
  intros (Hj & Hnt & (removed & Hperm & Hes & Hrem) & Hset & Horig & Hdone) Hc Hrun.
  apply Z.ltb_lt in Hc. unfold len in Hnt.
  apply scan_body_paired_cases in Hrun
    as (Hj0 & tj & dj & Haj &
        [(-> & ->) | [(-> & tri & c & Htri & Hin & ->) |
                      (-> & tri & c & al & Htri & Hin & Hn0 & Hal & ->)]]); simpl.
  - split_and!; try done; try lia.
    + by exists removed.
    + intros p x Hp Hx. destruct (decide (p = Z.to_nat j)) as [->|Hne].
      * left. rewrite Haj in Hx. inversion Hx; subst x. split; [done|].
        apply (Horig (Z.to_nat j)); [lia|done].
      * apply (Hset p); [lia|done].
    + intros p x Hp. apply Horig. lia.
  - split_and!; try done; try lia.
    + rewrite len_insert. unfold len. lia.
    + exists removed. split_and!; try done.
      by rewrite fmap_take, (fst_insert_same act _ tj false c), <- fmap_take.
    + intros p x Hp Hx. destruct (decide (p = Z.to_nat j)) as [->|Hne].
      * rewrite list_lookup_insert_eq in Hx by lia. inversion Hx; subst x.
        right. by exists tri.
      * rewrite list_lookup_insert_ne in Hx by done. apply (Hset p); [lia|done].
    + intros p x Hp Hx. rewrite list_lookup_insert_ne in Hx by lia.
      apply (Horig p); [lia|done].
    + intros t Ht. destruct (Hdone t Ht) as (p & Hp & Hpt).
      exists p. split; [done|]. rewrite list_lookup_insert_ne; [done|].
      intros <-. congruence.
  - destruct (lookup_lt_is_Some_2 act (Z.to_nat (nt - 1))) as [y Hy]; [lia|].
    assert (Z.to_nat j < Z.to_nat (nt - 1) -> al = y) as Hal'.
    { intros Hlt. rewrite list_lookup_insert_ne in Hal by lia. congruence. }
    split_and!; try lia.
    + rewrite len_insert. unfold len. lia.
    + exists (removed ++ [tj]). split_and!.
      * rewrite Hperm.
        replace (Z.to_nat nt) with (S (Z.to_nat (nt - 1))) by lia.
        rewrite (take_swap_remove act (Z.to_nat j) (Z.to_nat (nt - 1)) (tj, false) y al)
          by (done || lia).
        rewrite fmap_cons. simpl.
        rewrite (Permutation_app_comm removed [tj]). simpl.
        by rewrite Permutation_middle.
      * rewrite map_app, concat_app, Hes. done.
      * apply Forall_app. split; [done|]. apply Forall_singleton. split.
        -- apply (Horig (Z.to_nat j)); [lia|done].
        -- by exists tri, c.
    + intros p x Hp Hx. rewrite list_lookup_insert_ne in Hx by lia.
      apply (Hset p); [lia|done].
    + intros p x Hp Hx. destruct (decide (p = Z.to_nat j)) as [->|Hne].
      * rewrite list_lookup_insert_eq in Hx by lia. inversion Hx; subst x.
        rewrite Hal' by lia. apply (Horig (Z.to_nat (nt - 1))); [lia|done].
      * rewrite list_lookup_insert_ne in Hx by done. apply (Horig p); [lia|done].
    + intros t Ht. destruct (Hdone t Ht) as (p & Hp & Hpt).
      assert (p <> Z.to_nat j) as Hne by (intros ->; congruence).
      destruct (decide (p = Z.to_nat (nt - 1))) as [->|Hlast].
      * exists (Z.to_nat j). split; [lia|].
        rewrite list_lookup_insert_eq by lia. rewrite Hal' by lia. congruence.
      * exists p. split; [lia|]. by rewrite list_lookup_insert_ne.
Qed.

(** The loop over the active triangles and the re-slicing, on the two
    slices of the code. *)
Lemma scan_spec (ts ts' : list TriangleI) (dn dn' : list bool) (es : list EdgeI) :
  lockstep ts dn -> scan vs v ts dn = Ret (ts', dn', es) ->
  lockstep ts' dn' /\
  exists removed,
    Permutation ts (ts' ++ removed) /\
    es = concat (map edges_of removed) /\
    Forall (fun t => elem_of (t, false) (zip ts dn) /\ tested_in vs v t) removed /\
    Forall (settled vs v (zip ts dn)) (zip ts' dn') /\
    (forall t, elem_of (t, true) (zip ts dn) -> elem_of (t, true) (zip ts' dn')).
Proof.
  intros Hl Hrun. unfold scan in Hrun.
  inv_bind Hrun r Hr. inv_bind Hrun ts1 Hts1. inv_bind Hrun dn1 Hdn1.
  inversion Hrun; subst ts1 dn1 es. clear Hrun.
  pose (I := fun s : scan_st =>
    lockstep (sc_ts s) (sc_done s) /\ scan_post vs v (zip ts dn) (pair_of s)).
  destruct (for_loop_inv (fun s => (sc_j s <? sc_nt s)%Z) (scan_body vs v) scan_next I)
    with (fuel := length ts) (s := mkScan ts dn [] (len ts) 0) (r := r)
    as [[Hlr Hpost] Hc]; [| |done|].
  - intros s s2 [Hls Hps] Hcond Hbody.
    destruct (scan_body_refines vs v s s2 Hls Hbody) as [Hl2 Hpair].
    split; [done|]. by apply (scan_post_step (zip ts dn) (pair_of s) (pair_of s2)).
  - split; [done|]. unfold scan_post, pair_of, len. simpl.
    assert (length (zip ts dn) = length ts) as Hlz
      by (unfold lockstep in Hl; rewrite length_zip_with; lia).
    split_and!; try lia.
    + exists []. split_and!; try done.
      rewrite app_nil_r, Nat2Z.id, take_ge; [done|lia].
    + intros p x _ Hx. by eapply list_elem_of_lookup_2.
    + intros t Ht. apply list_elem_of_lookup_1 in Ht as [p Hp].
      exists p. split; [|done]. apply lookup_lt_Some in Hp. lia.
  - destruct (reslice_lockstep (sc_ts r) ts' (sc_done r) dn' (sc_nt r) Hlr Hts1 Hdn1)
      as [Hl' Hz].
    split; [done|].
    apply reslice_Ret in Hz as [Hrange Hz].
    apply Z.ltb_ge in Hc.
    destruct Hpost as (Hj & Hnt & (removed & Hperm & Hes & Hrem) & Hset & Horig & Hdone).
    unfold pair_of in *. simpl in *.
    exists removed. split_and!; try done.
    + rewrite <- Hz in Hperm.
      rewrite !fst_zip in Hperm by (unfold lockstep in *; lia). done.
    + rewrite Hz. apply Forall_lookup. intros p x Hp.
      apply lookup_take_Some in Hp as [Hp Hlt]. apply (Hset p); [lia|done].
    + intros t Ht. destruct (Hdone t Ht) as (p & Hp & Hpt).
      rewrite Hz. apply elem_of_take. exists p. split; [done|lia].
Qed.

End ScanSpec.

(** X8: the loop over the active triangles for a vertex [v] splits them:
    every triangle is kept or removed, the removed ones were not done and
    have [v] inside their circle, and the edge buffer holds their edges,
    three for each, in the order of their removal. *)
Theorem scan_removes_and_collects {F : Type} `{Scalar F} (vs : V2Set F) (v : V2 F)
    (ts ts' : list TriangleI) (dn dn' : list bool) (es : list EdgeI) :
  lockstep ts dn -> scan vs v ts dn = Ret (ts', dn', es) ->
  exists removed,
    Permutation ts (ts' ++ removed) /\
    Forall (fun t => elem_of (t, false) (zip ts dn) /\ tested_in vs v t) removed /\
    es = concat (map edges_of removed) /\
    length es = 3 * (length ts - length ts').
Proof.
  intros Hl Hrun.
  destruct (scan_spec vs v ts ts' dn dn' es Hl Hrun)
    as (_ & removed & Hperm & Hes & Hrem & _).
  exists removed. split_and!; try done.
  apply Permutation_length in Hperm. rewrite length_app in Hperm.
  rewrite Hes. clear Hes Hrem. replace (length ts - length ts') with (length removed) by lia.
  clear Hperm. induction removed as [|t removed IH]; simpl; [done|]. rewrite IH. lia.
Qed.

(** X9: after the loop over the active triangles for a vertex [v], every
    record that is left was done before the loop began, or [InCircumcircle]
    found [v] not inside its circle and its flag is the one that test
    reported. *)
Theorem scan_leaves_settled {F : Type} `{Scalar F} (vs : V2Set F) (v : V2 F)
    (ts ts' : list TriangleI) (dn dn' : list bool) (es : list EdgeI) :
  lockstep ts dn -> scan vs v ts dn = Ret (ts', dn', es) ->
  Forall (settled vs v (zip ts dn)) (zip ts' dn').
Proof.
  intros Hl Hrun.
  by destruct (scan_spec vs v ts ts' dn dn' es Hl Hrun) as (_ & removed & _ & _ & _ & Hs & _).
Qed.

(** ** One vertex is added *)

(** "Form new triangles": one triangle, not done, is appended for every edge
    that is not skipped, in the order of the buffer. *)
Lemma form_triangles_spec (i : Z) (es : list EdgeI) (ts : list TriangleI) (dn : list bool) :
  form_triangles i es ts dn
    = (ts ++ map (new_triangle i) (filter live_edge es),
       dn ++ map (fun _ => false) (filter live_edge es)).
Proof.
  unfold form_triangles. revert ts dn.
  induction es as [|e es IH]; intros ts dn; simpl; [by rewrite !app_nil_r|].
  unfold form_step at 2.
  destruct ((e0 e <? 0)%Z || (e1 e <? 0)%Z) eqn:Eneg.
  - rewrite IH. rewrite filter_cons_False; [done|].
    unfold live_edge. apply orb_true_iff in Eneg as [E|E]; apply Z.ltb_lt in E; lia.
  - rewrite IH. simpl. apply orb_false_iff in Eneg as [E0 E1]. apply Z.ltb_ge in E0, E1.
    rewrite filter_cons_True by done. simpl. by rewrite <- !app_assoc.
Qed.

Lemma live_edge_not_tagged (e : EdgeI) : live_edge e -> e <> tagged.
Proof. intros [H0 H1] ->. unfold tagged, e0 in H0. simpl in H0. lia. Qed.

Lemma elem_of_edges_concat (removed : list TriangleI) (e : EdgeI) :
  elem_of e (concat (map edges_of removed)) ->
  exists t, elem_of t removed /\ elem_of e (edges_of t).
Proof.
  induction removed as [|t removed IH]; [by intros ?%elem_of_nil|].
  change (concat (map edges_of (t :: removed)))
    with (edges_of t ++ concat (map edges_of removed)).
  intros He. apply elem_of_app in He as [He|He].
  - exists t. split; [left|done].
  - destruct (IH He) as (t' & Ht' & He'). exists t'. split; [by right|done].
Qed.

Section InsertSpec.
Context {F : Type} `{Scalar F}.
Variable vs : V2Set F.

(** One iteration of the loop over the vertices: the loop over the active
    triangles, the tagging, the new triangles. *)
Lemma insert_body_spec (s s' : ins_st) :
  lockstep (in_ts s) (in_done s) -> insert_body vs s = Ret s' ->
  exists v kept dkept removed es',
    idx vs (in_i s) = Ret v /\
    lockstep kept dkept /\
    Permutation (in_ts s) (kept ++ removed) /\
    Forall (fun t => elem_of (t, false) (zip (in_ts s) (in_done s)) /\ tested_in vs v t)
      removed /\
    Forall (settled vs v (zip (in_ts s) (in_done s))) (zip kept dkept) /\
    (forall t, elem_of (t, true) (zip (in_ts s) (in_done s)) ->
       elem_of (t, true) (zip kept dkept)) /\
    tag_edges (concat (map edges_of removed)) = Ret es' /\
    in_ts s' = kept ++ map (new_triangle (in_i s)) (filter live_edge es') /\
    in_done s' = dkept ++ map (fun _ => false) (filter live_edge es') /\
    in_i s' = in_i s.
Proof.
  intros Hl Hrun. unfold insert_body in Hrun.
  inv_bind Hrun v Hv. inv_bind Hrun r Hr. destruct r as [[ts1 dn1] es].
  inv_bind Hrun es' Hes'.
  destruct (scan_spec vs v _ _ _ _ _ Hl Hr)
    as (Hl1 & removed & Hperm & -> & Hrem & Hset & Hdone).
  rewrite form_triangles_spec in Hrun. inversion Hrun; subst s'. simpl.
  exists v, ts1, dn1, removed, es'. split_and!; done.
Qed.

End InsertSpec.

(** ** The whole run *)

Section Run.
Context {F : Type} `{Scalar F}.
Variable vs : V2Set F.

(** A property of the states of the loop over the vertices that holds of
    the seed and is kept by every iteration holds of the state the last loop
    starts from; what is returned are the triangles of that state that have no
    vertex of the super-triangle. *)
Lemma triangulate_inv (I : ins_st -> Prop) (ts : list TriangleI) :
  triangulate vs = Ret ts ->
  I (mkIns [(len vs, len vs + 1, len vs + 2)%Z] [false] 0) ->
  (forall t s s', SuperTriangle vs = Ret t -> ins_inv (len vs) s -> I s ->
     (in_i s <? len vs)%Z = true -> insert_body (vs ++ t) s = Ret s' ->
     I (insert_next s')) ->
  exists r, I r /\ ins_inv (len vs) r /\ in_i r = len vs /\
    Permutation ts (filter (below (len vs)) (in_ts r)).
Proof.
  intros Hrun Hseed Hstep. unfold triangulate in Hrun.
  inv_bind Hrun t Ht. inv_bind Hrun r Hr.
  assert (vs <> []) as Hne by (intros ->; discriminate).
  destruct (SuperTriangle_total vs Hne) as (p0 & p1 & p2 & Hst).
  assert (t = [p0; p1; p2]) as Et by congruence.
  set (n := len vs) in *.
  assert (len (vs ++ t) = (n + 3)%Z) as Hlen by (rewrite len_app, Et; done).
  pose proof (len_nonneg vs) as Hn. fold n in Hn.
  destruct (for_loop_inv (fun s => (in_i s <? n)%Z) (insert_body (vs ++ t)) insert_next
              (fun s => ins_inv n s /\ I s))
    with (fuel := length (vs ++ t)) (s := mkIns [(n, n + 1, n + 2)%Z] [false] 0) (r := r)
    as [[Hinv HI] Hc]; [| |done|].
  - intros s s' [Hs HIs] Hcond Hbody.
    destruct (insert_body_total (vs ++ t) n Hlen s Hs Hcond) as (s'' & Hb' & Hs' & _).
    assert (s'' = s') as -> by congruence.
    split; [done|]. by apply (Hstep t s s').
  - split; [|done]. unfold ins_inv. simpl. split; [lia|]. split; [done|].
    apply Forall_singleton. unfold tri_ok, vertex_ok, t0, t1, t2. simpl.
    repeat split; lia.
  - exists r. split; [done|]. split; [done|].
    apply Z.ltb_ge in Hc. destruct Hinv as (Hi & _). split; [lia|].
    destruct (finalize_perm n (in_ts r)) as (ts' & Hfin & Hperm).
    rewrite Hfin in Hrun. by inversion Hrun; subst ts'.
Qed.

End Run.

Section RunProperties.
Context {F : Type} `{Scalar F}.

(** Where a triangle of the active list comes from after a vertex has been
    added: it was there before, or it is formed from a live edge of a
    triangle that was there before. *)
Lemma insert_body_elem (vs : V2Set F) (s s' : ins_st) (t : TriangleI) :
  lockstep (in_ts s) (in_done s) -> insert_body vs s = Ret s' ->
  elem_of t (in_ts s') ->
  elem_of t (in_ts s) \/
  exists r e v, elem_of r (in_ts s) /\ idx vs (in_i s) = Ret v /\ tested_in vs v r /\
    elem_of e (edges_of r) /\ live_edge e /\ t = new_triangle (in_i s) e.
Proof.
  intros Hl Hrun Ht.
  destruct (insert_body_spec vs s s' Hl Hrun)
    as (v & kept & dkept & removed & es' & Hv & Hlk & Hperm & Hrem & _ & _ & Htag & Hts & _).
  rewrite Hts in Ht. apply elem_of_app in Ht as [Ht|Ht].
  - left. rewrite Hperm. apply elem_of_app. by left.
  - right. apply list_elem_of_fmap in Ht as (e & -> & He).
    apply list_elem_of_filter in He as [Hlive He].
    destruct (tag_edges_kept (concat (map edges_of removed))) as (es'' & Htag' & _ & Hkept).
    assert (es'' = es') as -> by congruence.
    apply list_elem_of_lookup_1 in He as [l Hle].
    destruct (Hkept l e Hle) as [->|Ho]; [by destruct (live_edge_not_tagged tagged)|].
    apply list_elem_of_lookup_2 in Ho.
    apply elem_of_edges_concat in Ho as (r & Hr & He).
    exists r, e, v. split_and!; try done.
    + rewrite Hperm. apply elem_of_app. by right.
    + rewrite Forall_forall in Hrem. by destruct (Hrem r Hr).
Qed.

(** X11: in every triangle that [Delaunay2d] returns the third index is the
    largest: a triangle is formed with the vertex being added as its third
    corner, from an edge between vertices added before. *)
Theorem Delaunay2d_apex_last (vs : V2Set F) (ts : list TriangleI) :
  snd (Delaunay2d vs) = Ret ts ->
  Forall (fun t => (t0 t < t2 t)%Z /\ (t1 t < t2 t)%Z) ts.
Proof.
  unfold Delaunay2d. simpl snd. set (vs1 := sort_V2SetByX vs). set (n := len vs1).
  intros Hrun.
  pose (P := fun t : TriangleI =>
    (n <= t2 t)%Z \/ ((t0 t < t2 t \/ n <= t0 t)%Z /\ (t1 t < t2 t \/ n <= t1 t)%Z)).
  destruct (triangulate_inv vs1 (fun s => Forall P (in_ts s)) ts Hrun)
    as (r & HP & _ & _ & Hperm).
  - apply Forall_singleton. left. unfold t2. simpl. fold n. lia.
  - intros t s s' Ht (Hi & Hl & Hok) HPs Hcond Hbody. fold n in Hcond, Hi, Hok.
    apply Z.ltb_lt in Hcond. simpl.
    apply Forall_forall. intros x Hx.
    destruct (insert_body_elem (vs1 ++ t) s s' x Hl Hbody Hx)
      as [Hold|(r & e & v & Hr & _ & _ & He & Hlive & ->)].
    + rewrite Forall_forall in HPs. by apply HPs.
    + rewrite Forall_forall in Hok. destruct (Hok r Hr) as (V0 & V1 & V2 & _).
      right. unfold new_triangle, edges_of, t0, t1, t2, vertex_ok in *. simpl.
      apply elem_of_cons in He as [->|He]; [simpl; lia|].
      apply elem_of_cons in He as [->|He]; [simpl; lia|].
      apply elem_of_cons in He as [->|He]; [simpl; lia|].
      by apply elem_of_nil in He.
  - apply Forall_forall. intros x Hx. rewrite Hperm in Hx.
    apply list_elem_of_filter in Hx as [(B0 & B1 & B2) Hx].
    rewrite Forall_forall in HP. fold n in B0, B1, B2.
    destruct (HP x Hx) as [?|[? ?]]; lia.
Qed.

End RunProperties.

(** Entries that differ from one position to the next stay without
    repetition when some of them are filtered out. *)
Lemma NoDup_filter_lookup {A : Type} (P : A -> Prop) `{forall x, Decision (P x)}
    (l : list A) :
  (forall j k a b, j <> k -> l !! j = Some a -> l !! k = Some b -> P a -> P b -> a <> b) ->
  NoDup (filter P l).
Proof.
  induction l as [|x l IH]; intros Hne; [constructor|].
  assert (NoDup (filter P l)) as Hl.
  { apply IH. intros j k a b Hjk Hj Hk. apply (Hne (S j) (S k)); [lia|done..]. }
  destruct (decide (P x)) as [Hx|Hx].
  - rewrite filter_cons_True by done. constructor; [|done].
    intros Hin. apply list_elem_of_filter in Hin as [_ Hin].
    apply list_elem_of_lookup_1 in Hin as [k Hk].
    by apply (Hne 0 (S k) x x).
  - by rewrite filter_cons_False.
Qed.

Lemma new_triangle_inj (i : Z) (a b : EdgeI) : new_triangle i a = new_triangle i b -> a = b.
Proof.
  destruct a as [a0 a1], b as [b0 b1]. unfold new_triangle, e0, e1. simpl.
  by intros [= -> ->].
Qed.

Section RunMore.
Context {F : Type} `{Scalar F}.

(** One vertex is added to a list of triangles without repetition, of
    vertices added before: the list is without repetition afterwards. *)
Lemma insert_body_NoDup (vs : V2Set F) (n : Z) (s s' : ins_st) :
  ins_inv n s -> (in_i s < n)%Z -> insert_body vs s = Ret s' ->
  NoDup (in_ts s) -> NoDup (in_ts s').
Proof.
  intros (Hi & Hl & Hok) Hlt Hrun Hnd.
  destruct (insert_body_spec vs s s' Hl Hrun)
    as (v & kept & dkept & removed & es' & Hv & Hlk & Hperm & Hrem & _ & _ & Htag & Hts & _).
  rewrite Hts. rewrite Hperm in Hnd. apply NoDup_app in Hnd as (Hkept & _ & _).
  apply NoDup_app. split_and!; [done| |].
  - intros t Ht Hnew. apply list_elem_of_fmap in Hnew as (e & -> & _).
    assert (elem_of (new_triangle (in_i s) e) (in_ts s)) as Hin
      by (rewrite Hperm; apply elem_of_app; by left).
    rewrite Forall_forall in Hok. destruct (Hok _ Hin) as (_ & _ & V2 & _).
    unfold new_triangle, t2, vertex_ok in V2. simpl in V2. lia.
  - apply NoDup_fmap_2_strong.
    + intros a b _ _. apply new_triangle_inj.
    + destruct (tag_edges_twin_free (concat (map edges_of removed)))
        as (es'' & Htag' & Hfree).
      assert (es'' = es') as -> by congruence.
      apply NoDup_filter_lookup. intros j k a b Hjk Hj Hk Ha Hb Hab.
      apply (Hfree j k a b Hjk Hj Hk); [by apply live_edge_not_tagged..|].
      by left.
Qed.

(** X12: [Delaunay2d] returns no triangle twice. *)
Theorem Delaunay2d_no_triangle_twice (vs : V2Set F) (ts : list TriangleI) :
  snd (Delaunay2d vs) = Ret ts -> NoDup ts.
Proof.
  unfold Delaunay2d. simpl snd. intros Hrun.
  destruct (triangulate_inv (sort_V2SetByX vs) (fun s => NoDup (in_ts s)) ts Hrun)
    as (r & Hnd & _ & _ & Hperm).
  - apply NoDup_singleton.
  - intros t s s' _ Hs Hnd Hcond Hbody. simpl. apply Z.ltb_lt in Hcond.
    by apply (insert_body_NoDup (sort_V2SetByX vs ++ t) (len (sort_V2SetByX vs)) s s').
  - rewrite Hperm. by apply NoDup_filter.
Qed.

(** X13: from one or two points [Delaunay2d] returns the empty list of
    triangles, and no error. *)
Theorem Delaunay2d_few_points (vs : V2Set F) :
  1 <= length vs <= 2 -> snd (Delaunay2d vs) = Ret [].
Proof.
  intros Hlen. unfold Delaunay2d. simpl snd.
  destruct (triangulate_total (sort_V2SetByX vs)) as (ts & Hrun & Hok).
  { intros E. pose proof (proj1 (sort_V2SetByX_nil vs) E) as Hnil.
    rewrite Hnil in Hlen. simpl in Hlen. lia. }
  rewrite Hrun. f_equal. destruct ts as [|t ts]; [done|].
  apply Forall_cons in Hok as [(V0 & V1 & V2 & D0 & D1 & D2) _].
  unfold len in *. rewrite sort_V2SetByX_length in *. lia.
Qed.

End RunMore.

(** ** A triangle that is done stays *)

Section LoopStates.
Context {S : Type} (cond : S -> bool) (body : S -> outcome S) (post : S -> S).

(** The loop returns from each of its states what it returns from the
    first. *)
Lemma for_loop_from_reach (s0 s r : S) (fuel : nat) :
  loop_reach cond body post s0 s -> for_loop fuel cond body post s0 = Ret r ->
  exists fuel', for_loop fuel' cond body post s = Ret r.
Proof.
  intros Hreach Hrun. induction Hreach as [|s s' Hreach IH Hc Hb]; [by eauto|].
  destruct IH as [fuel' Hf]. destruct fuel' as [|fuel']; simpl in Hf; rewrite Hc in Hf.
  - discriminate.
  - rewrite Hb in Hf. simpl in Hf. eauto.
Qed.

Lemma for_steps_reach (k : nat) (s0 s1 s : S) :
  loop_reach cond body post s0 s1 -> for_steps k cond body post s1 = Ret s ->
  loop_reach cond body post s0 s.
Proof.
  revert s1. induction k as [|k IH]; intros s1 Hreach Hrun; simpl in Hrun.
  - by inversion Hrun; subst.
  - destruct (cond s1) eqn:Hc; [|by inversion Hrun; subst].
    destruct (body s1) as [s'| | |] eqn:Hb; simpl in Hrun; try discriminate.
    apply (IH (post s')); [|done]. by eapply reach_iter.
Qed.

End LoopStates.

Section DoneStays.
Context {F : Type} `{Scalar F}.

Lemma insert_body_done_stays (vs : V2Set F) (s s' : ins_st) (t : TriangleI) :
  lockstep (in_ts s) (in_done s) -> insert_body vs s = Ret s' ->
  elem_of (t, true) (zip (in_ts s) (in_done s)) ->
  elem_of (t, true) (zip (in_ts s') (in_done s')).
Proof.
  intros Hl Hrun Ht.
  destruct (insert_body_spec vs s s' Hl Hrun)
    as (v & kept & dkept & removed & es' & _ & Hlk & _ & _ & _ & Hdone & _ & Hts & Hdn & _).
  rewrite Hts, Hdn. rewrite zip_with_app by done.
  apply elem_of_app. left. by apply Hdone.
Qed.

(** X10: a triangle that is done at the head of an iteration of the loop
    over the vertices is never removed, whatever the vertices that follow:
    if it has no vertex of the super-triangle, it is one of the triangles
    that [Delaunay2d] returns. *)
Theorem Delaunay2d_done_is_final (vs : V2Set F) (ts : list TriangleI)
    (sup : list (V2 F)) (s : ins_st) (t : TriangleI) :
  let sorted := fst (Delaunay2d vs) in
  let n := len sorted in
  snd (Delaunay2d vs) = Ret ts ->
  SuperTriangle sorted = Ret sup ->
  loop_reach (fun s => (in_i s <? n)%Z) (insert_body (sorted ++ sup)) insert_next
    (mkIns [(n, n + 1, n + 2)%Z] [false] 0) s ->
  elem_of (t, true) (zip (in_ts s) (in_done s)) -> below n t ->
  elem_of t ts.
Proof.
  unfold Delaunay2d. simpl. set (vs1 := sort_V2SetByX vs). set (n := len vs1).
  intros Hrun Hsup Hreach Ht Hbelow.
  unfold triangulate in Hrun. rewrite Hsup in Hrun. simpl in Hrun. fold n in Hrun.
  inv_bind Hrun r Hr.
  destruct (for_loop_from_reach _ _ _ _ s r _ Hreach Hr) as [fuel' Hr'].
  assert (lockstep (in_ts s) (in_done s)) as Hl.
  { apply (loop_reach_inv (fun s => (in_i s <? n)%Z) (insert_body (vs1 ++ sup)) insert_next
             (fun s => lockstep (in_ts s) (in_done s))
             (mkIns [(n, n + 1, n + 2)%Z] [false] 0)); try done.
    intros s1 s2 Hs1 _ Hb. by apply (insert_body_lockstep (vs1 ++ sup) s1 s2). }
  destruct (for_loop_inv (fun s => (in_i s <? n)%Z) (insert_body (vs1 ++ sup)) insert_next
              (fun s => lockstep (in_ts s) (in_done s) /\
                        elem_of (t, true) (zip (in_ts s) (in_done s))))
    with (fuel := fuel') (s := s) (r := r) as [[Hlr Htr] _]; [|done|done|].
  - intros s1 s2 [Hl1 Ht1] _ Hb. simpl. split.
    + by apply (insert_body_lockstep (vs1 ++ sup) s1 s2).
    + by apply (insert_body_done_stays (vs1 ++ sup) s1 s2).
  - destruct (finalize_perm n (in_ts r)) as (ts' & Hfin & Hperm).
    assert (ts' = ts) as -> by congruence.
    rewrite Hperm. apply list_elem_of_filter. split; [done|].
    by apply elem_of_zip_l in Htr.
Qed.

End DoneStays.

(** ** Points with a NaN *)

Lemma SFcompare_refl (a : spec_float) : a <> S754_nan -> SFcompare a a = Some Eq.
Proof.
  destruct a as [s|s| |s m e]; try destruct s; simpl; try done;
    intros _; rewrite Z.compare_refl;
    change (Pos.compare_cont Eq m m) with (Pos.compare m m);
    by rewrite Pos.compare_refl.
Qed.

Lemma float_is_nan_eq (x : float) : is_nan x = true -> x = nan.
Proof.
  unfold is_nan. rewrite FloatAxioms.eqb_spec. unfold SFeqb. intros E.
  rewrite <- (SF2Prim_Prim2SF x).
  destruct (Prim2SF x) as [s|s| |s m e] eqn:Ex; [| |reflexivity|];
    rewrite SFcompare_refl in E by done; discriminate.
Qed.

Lemma float_sub_nan_l (y : float) : PrimFloat.sub nan y = nan.
Proof.
  rewrite <- (SF2Prim_Prim2SF (PrimFloat.sub nan y)), sub_spec.
  change (Prim2SF nan) with S754_nan. reflexivity.
Qed.

Lemma float_add_nan_l (y : float) : PrimFloat.add nan y = nan.
Proof.
  rewrite <- (SF2Prim_Prim2SF (PrimFloat.add nan y)), add_spec.
  change (Prim2SF nan) with S754_nan. reflexivity.
Qed.

Lemma float_add_nan_r (x : float) : PrimFloat.add x nan = nan.
Proof.
  rewrite <- (SF2Prim_Prim2SF (PrimFloat.add x nan)), add_spec.
  change (Prim2SF nan) with S754_nan.
  destruct (Prim2SF x) as [s|s| |s m e]; try destruct s; reflexivity.
Qed.

Lemma float_mul_nan : PrimFloat.mul nan nan = nan.
Proof.
  rewrite <- (SF2Prim_Prim2SF (PrimFloat.mul nan nan)), mul_spec. reflexivity.
Qed.

Section NaNPoints.
Variable eps : float.
Let B64 : Scalar float := binary64 eps.
Existing Instance B64.

(** A point with a NaN for a coordinate is inside no circle. *)
Lemma InCircumcircle_nan (t : Triangle2 float) (p : V2 float) :
  has_nan p = true -> fst (InCircumcircle t p) = false.
Proof.
  intros Hp. unfold InCircumcircle. destruct (Circumcenter t) as [c| | |]; try done.
  assert (dist2 p c = nan) as Hd.
  { unfold dist2. cbv [fsub fadd fmul B64 binary64].
    apply orb_true_iff in Hp as [Hx|Hy].
    - rewrite (float_is_nan_eq _ Hx), float_sub_nan_l, float_mul_nan.
      apply float_add_nan_l.
    - rewrite (float_is_nan_eq _ Hy), float_sub_nan_l, float_mul_nan.
      apply float_add_nan_r. }
  cbv [fst]. rewrite Hd. cbv [fsub fle EPSILON B64 binary64].
  by rewrite float_sub_nan_l, float_leb_nan.
Qed.


End NaNPoints.

(** ** The properties on runs *)

Lemma scan_removes_and_collects_witness :
  exists removed,
    Permutation [(0, 1, 2); (0, 1, 2)]%Z ([(0, 1, 2)%Z] ++ removed) /\
    Forall (fun t => elem_of (t, false) (zip [(0, 1, 2); (0, 1, 2)]%Z [false; true]) /\
                     @tested_in _ (binary64 eps12) corner_points (pt 1 1) t) removed /\
    [(0, 1); (1, 2); (2, 0)]%Z = concat (map edges_of removed) /\
    length [(0, 1); (1, 2); (2, 0)]%Z = 3 * (length [(0, 1, 2); (0, 1, 2)]%Z - length [(0, 1, 2)%Z]).
Proof.
  apply (@scan_removes_and_collects _ (binary64 eps12) corner_points (pt 1 1)
           [(0, 1, 2); (0, 1, 2)]%Z [(0, 1, 2)%Z] [false; true] [true]
           [(0, 1); (1, 2); (2, 0)]%Z).
  - reflexivity.
  - vm_compute. reflexivity.
Defined.

Lemma scan_leaves_settled_witness :
  Forall (@settled _ (binary64 eps12) corner_points (pt 1 1)
            (zip [(0, 1, 2); (0, 1, 2)]%Z [false; true]))
    (zip [(0, 1, 2)%Z] [true]).
Proof.
  apply (@scan_leaves_settled _ (binary64 eps12) corner_points (pt 1 1)
           [(0, 1, 2); (0, 1, 2)]%Z [(0, 1, 2)%Z] [false; true] [true]
           [(0, 1); (1, 2); (2, 0)]%Z).
  - reflexivity.
  - vm_compute. reflexivity.
Defined.

Lemma Delaunay2d_done_is_final_witness :
  elem_of (0, 1, 2)%Z [(2, 1, 3); (0, 1, 2)]%Z.
Proof.
  eapply (@Delaunay2d_done_is_final _ (binary64 eps12) spread_points
            [(2, 1, 3); (0, 1, 2)]%Z).
  - vm_compute. reflexivity.
  - vm_compute. reflexivity.
  - eapply (for_steps_reach _ _ _ 4); [apply reach_start|]. vm_compute. reflexivity.
  - vm_compute. apply list_elem_of_In. simpl. tauto.
  - vm_compute. repeat split.
Defined.

Lemma Delaunay2d_apex_last_witness :
  Forall (fun t => (t0 t < t2 t)%Z /\ (t1 t < t2 t)%Z) [(2, 0, 3); (0, 1, 3)]%Z.
Proof.
  apply (@Delaunay2d_apex_last _ (binary64 eps12) [pt 0 0; pt 4 0; pt 4 4; pt 0 4]).
  vm_compute. reflexivity.
Defined.

Lemma Delaunay2d_no_triangle_twice_witness : NoDup [(2, 0, 3); (0, 1, 3)]%Z.
Proof.
  apply (@Delaunay2d_no_triangle_twice _ (binary64 eps12) [pt 0 0; pt 4 0; pt 4 4; pt 0 4]).
  vm_compute. reflexivity.
Defined.

Lemma Delaunay2d_few_points_witness :
  snd (@Delaunay2d _ (binary64 eps12) [pt 1 1; pt 2 2]) = Ret [].
Proof.
  apply (@Delaunay2d_few_points _ (binary64 eps12) [pt 1 1; pt 2 2]). simpl. lia.
Defined.


(** ** Division by zero and collinear vertices *)



(** ** No vertex inside the circle of the super-triangle *)

Section NothingInside.
Context {F : Type} `{Scalar F}.

(** A vertex that [InCircumcircle] finds not inside the circle of the
    super-triangle, the only active triangle, leaves it the only one. *)
Lemma insert_body_nothing_inside (vs : V2Set F) (p0 p1 p2 v : V2 F) (d : bool) (i : Z) :
  let n := len vs in
  idx (vs ++ [p0; p1; p2]) i = Ret v ->
  fst (InCircumcircle (p0, p1, p2) v) = false ->
  exists d', insert_body (vs ++ [p0; p1; p2]) (mkIns [(n, n + 1, n + 2)%Z] [d] i)
             = Ret (mkIns [(n, n + 1, n + 2)%Z] [d'] i).
Proof.
  intros n Hv Hout. pose proof (len_nonneg vs) as Hn. fold n in Hn.
  assert (forall k q, [p0; p1; p2] !! k = Some q ->
            idx (vs ++ [p0; p1; p2]) (n + Z.of_nat k) = Ret q) as Hsup.
  { intros k q Hq. apply idx_Ret. split; [lia|].
    replace (Z.to_nat (n + Z.of_nat k)) with (length vs + k) by (unfold n, len; lia).
    by rewrite lookup_app_r, Nat.add_comm, Nat.add_sub by lia. }
  pose proof (Hsup 0 p0 eq_refl) as H0. pose proof (Hsup 1 p1 eq_refl) as H1.
  pose proof (Hsup 2 p2 eq_refl) as H2.
  replace (n + Z.of_nat 0)%Z with n in H0 by lia.
  change (Z.of_nat 1) with 1%Z in H1. change (Z.of_nat 2) with 2%Z in H2.
  unfold insert_body. simpl in_i. rewrite Hv. simpl obind.
  unfold scan. simpl length. unfold for_loop.
  cbn [sc_j sc_nt len length Z.of_nat Pos.of_succ_nat Z.ltb Z.compare].
  destruct d.
  - unfold scan_body. simpl. unfold tag_edges. simpl.
    exists true. reflexivity.
  - unfold scan_body. cbn [sc_ts sc_done sc_es sc_nt sc_j].
    change (idx [false] 0) with (Ret (A := bool) false). cbn [obind].
    change (idx [(n, n + 1, n + 2)%Z] 0) with (Ret (A := TriangleI) (n, n + 1, n + 2)%Z).
    cbn [obind t0 t1 t2 fst snd]. rewrite H0, H1, H2. cbn [obind].
    destruct (InCircumcircle (p0, p1, p2) v) as [inside complete].
    simpl in Hout. subst inside. simpl. unfold tag_edges. simpl.
    exists complete. reflexivity.
Qed.

(** When no vertex is inside the circle of the super-triangle, no triangle
    is ever formed. *)
Lemma triangulate_nothing_inside (vs : V2Set F) (p0 p1 p2 : V2 F) :
  SuperTriangle vs = Ret [p0; p1; p2] ->
  (forall v, elem_of v vs -> fst (InCircumcircle (p0, p1, p2) v) = false) ->
  triangulate vs = Ret [].
Proof.
  intros Hsup Hout.
  assert (vs <> []) as Hne by (intros ->; discriminate).
  destruct (triangulate_total vs Hne) as (ts & Hrun & _).
  destruct (triangulate_inv vs
              (fun s => in_ts s = [(len vs, len vs + 1, len vs + 2)%Z]) ts Hrun)
    as (r & Hr & _ & _ & Hperm); [done| |].
  - intros t s s' Ht (Hi & Hl & _) Hts Hcond Hbody. apply Z.ltb_lt in Hcond.
    assert (t = [p0; p1; p2]) as -> by congruence.
    destruct s as [ts0 dn0 i]. simpl in *. subst ts0.
    destruct dn0 as [|d [|? ?]]; try discriminate.
    destruct (idx_in_range (vs ++ [p0; p1; p2]) i) as (v & Hv & Hlook).
    { rewrite len_app. unfold len at 2. simpl. lia. }
    assert (elem_of v vs) as Hin.
    { rewrite lookup_app_l in Hlook by (unfold len in *; lia).
      by eapply list_elem_of_lookup_2. }
    destruct (insert_body_nothing_inside vs p0 p1 p2 v d i Hv (Hout v Hin)) as [d' Hb].
    rewrite Hb in Hbody. by inversion Hbody; subst s'.
  - rewrite Hr in Hperm. rewrite Hrun. f_equal.
    rewrite filter_cons_False in Hperm; [by apply Permutation_nil|].
    unfold below, t0. simpl. lia.
Qed.

(** X16: when [InCircumcircle] finds no input point inside the circle of the
    super-triangle, [Delaunay2d] returns the empty list of triangles and no
    error; this is so in particular when [Circumcenter] fails on the
    super-triangle. *)
Theorem Delaunay2d_nothing_inside (vs : V2Set F) (p0 p1 p2 : V2 F) :
  SuperTriangle (fst (Delaunay2d vs)) = Ret [p0; p1; p2] ->
  (Circumcenter (p0, p1, p2) = Fail coincident_points \/
   forall v, elem_of v vs -> fst (InCircumcircle (p0, p1, p2) v) = false) ->
  snd (Delaunay2d vs) = Ret [].
Proof.
  unfold Delaunay2d. simpl. intros Hsup Hout.
  apply (triangulate_nothing_inside _ p0 p1 p2 Hsup).
  intros v Hv. rewrite <- (sort_V2SetByX_perm vs) in Hv.
  destruct Hout as [Hfail|Hout]; [|by apply Hout].
  unfold InCircumcircle. by rewrite Hfail.
Qed.

End NothingInside.

Section TinyCloud.
Variable eps : Q.
Let QS : Scalar Q := exactQ eps.
Existing Instance QS.

Lemma super_points_coincident (c : V2 Q) (k : Q) :
  (0 <= k)%Q -> (2 * k < eps)%Q ->
  match super_points c k with
  | [p0; p1; p2] => Circumcenter (p0, p1, p2) = Fail coincident_points
  | _ => False
  end.
Proof.
  intros Hk Hsmall. destruct c as [cx cy].
  cbv [super_points V2_Add Circumcenter Circumcenter_trace X Y flt fsub fadd fneg Abs
       EPSILON lit_0 exactQ QS].
  assert (forall a b : Q, (Qabs (a - b) < eps)%Q ->
            negb (Qle_bool eps (Qabs (a - b))) = true) as Hlt
    by (intros a b; apply flt_Q_true).
  rewrite !Hlt; [done| |].
  - apply Qabs_case; intros; lra.
  - apply Qabs_case; intros; lra.
Qed.


End TinyCloud.

Lemma Delaunay2d_nothing_inside_witness :
  snd (@Delaunay2d _ (binary64 eps12) [pt 1 1; pt 1 1; pt 1 1]) = Ret [].
Proof.
  eapply (@Delaunay2d_nothing_inside _ (binary64 eps12) [pt 1 1; pt 1 1; pt 1 1]).
  - vm_compute. reflexivity.
  - left. vm_compute. reflexivity.
Defined.

